(** * PhotoScan_Workflow.py: tie-point reduction and BRDF correction

    A shallow embedding of the algorithmic core of [PhotoScan_Workflow.py]:
    the tie-point correspondence tables ([GetPointMatchList],
    [CollateMatchList]), the three error-reduction loops ([ReduceError_RU],
    [ReduceError_PA], [ReduceError_RE]), the solar geometry
    ([GetSunAngle], [CreateSunViewGeometryArrays]) and the BRDF correction
    ([BRDFImage], [SearchForOutliers], [ZenithPredict], [BRDFCorrection]).

    Conventions.
    - Python dictionaries are [gmap]s, so the order in which a dictionary
      is iterated is not modelled; cameras and band planes are identified
      by a natural-number key, tie points by their index in
      [chunk.point_cloud.points].
    - Python and numpy floats are modelled as exact rationals [Q]: rounding,
      NaN and infinities are not modelled.
    - The photogrammetry engine, pysolar, the math library and scikit-learn
      are collaborators of the script; they appear as the fields of the
      interface classes [Engine], [Solar], [Scene] and [Learn].
    - The [while] loops of the reduction functions need not end; they run
      under a bound on the number of passes and return [None] when the
      bound is used up.
    - Python exceptions are the constructors of [PyError]; a function that
      can raise returns [Res A]. Index errors of numpy arrays and of engine
      images are not modelled: indices are taken to be in range.
    - [os.path] is [posixpath]; only image files exist on disk, directories
      are not modelled. *)

From Stdlib Require Import ZArith QArith Qabs Qround Lia Lqa Bool Ascii String.
From stdpp Require Import gmap strings list fin_maps sorting.

Local Open Scope Q_scope.

(** ** Correspondence tables *)

Module Match.

(** Pixel coordinate of a projection ([cur_point.coord]). *)
Definition Coord : Type := Q * Q.

(** [camera_matches]: camera key -> { point index -> coord }.
    [point_matches]:  point index -> { camera key -> coord }. *)
Abbreviation CameraMatches := (gmap nat (gmap nat Coord)).
Abbreviation PointMatches := (gmap nat (gmap nat Coord)).

(** A camera of the chunk: its own key and the keys of its band planes. *)
Record Camera := { cam_key : nat; planes : list nat }.

(** One entry of [point_cloud.projections[camera]]. *)
Record Projection := { proj_track_id : Z; proj_coord : Coord }.

(** [camera.planes[band[0]]], falling back to [camera] on [IndexError]
    (no band argument, or no such plane). *)
Definition band_key (camera : Camera) (band : option nat) : nat :=
  match band with
  | Some i => default (cam_key camera) (planes camera !! i)
  | None => cam_key camera
  end.

(** [while point_index < npoints and points[point_index].track_id < track_id:
       point_index += 1]
    run on the suffix of [points] that starts at [point_index]. *)
Fixpoint advance (rest : list Z) (point_index : nat) (track_id : Z)
  : list Z * nat :=
  match rest with
  | t :: rest' =>
      if (t <? track_id)%Z then advance rest' (S point_index) track_id
      else (rest, point_index)
  | [] => (rest, point_index)
  end.

(** State of the inner loop of [GetPointMatchList]. *)
Record Cursor := {
  cur_rest : list Z;          (* points[point_index:] as track ids *)
  cur_index : nat;            (* point_index *)
  cur_total : gmap nat Coord; (* total *)
  cur_points : PointMatches   (* point_matches *)
}.

(** Body of [for cur_point in proj]. *)
Definition match_projection (key : nat) (c : Cursor) (p : Projection) : Cursor :=
  let '(rest, point_index) := advance (cur_rest c) (cur_index c) (proj_track_id p) in
  match rest with
  | t :: _ =>
      if (t =? proj_track_id p)%Z then
        {| cur_rest := rest; cur_index := point_index;
           cur_total := <[point_index := proj_coord p]> (cur_total c);
           cur_points :=
             <[point_index :=
                 <[key := proj_coord p]> (default ∅ (cur_points c !! point_index))]>
               (cur_points c) |}
      else
        {| cur_rest := rest; cur_index := point_index;
           cur_total := cur_total c; cur_points := cur_points c |}
  | [] =>
      {| cur_rest := rest; cur_index := point_index;
         cur_total := cur_total c; cur_points := cur_points c |}
  end.

(** Body of [for camera in chunk.cameras]. *)
Definition match_camera (points : list Z) (point_proj : nat -> list Projection)
    (band : option nat) (acc : CameraMatches * PointMatches) (camera : Camera)
  : CameraMatches * PointMatches :=
  let key := band_key camera band in
  let c := foldl (match_projection key)
             {| cur_rest := points; cur_index := 0%nat;
                cur_total := ∅; cur_points := acc.2 |}
             (point_proj key) in
  (<[key := cur_total c]> acc.1, cur_points c).

Definition GetPointMatchList (points : list Z) (cameras : list Camera)
    (point_proj : nat -> list Projection) (band : option nat)
  : CameraMatches * PointMatches :=
  foldl (match_camera points point_proj band) (∅, ∅) cameras.

(** [CollateMatchList]: the first loop keeps the entries of
    [point_matches] with [len(value) >= 3] and collects their keys in
    [point_to_keep]; the second rebuilds every camera's table with the
    dict comprehension [if point in point_to_keep]. *)
Definition keep_point (value : gmap nat Coord) : bool :=
  bool_decide (3 ≤ size value)%nat.

Definition CollateMatchList (camera_matches : CameraMatches)
    (point_matches : PointMatches) : CameraMatches * PointMatches :=
  let new_point_matches :=
    filter (λ kv, keep_point kv.2 = true) point_matches in
  let point_to_keep : gset nat := dom new_point_matches in
  let new_camera_matches :=
    (λ points : gmap nat Coord, filter (λ pc, pc.1 ∈ point_to_keep) points)
      <$> camera_matches in
  (new_camera_matches, new_point_matches).

End Match.

(** ** Rational comparisons as booleans *)

Definition Qgt_bool (x y : Q) : bool := negb (Qle_bool x y).
Definition Qge_bool (x y : Q) : bool := Qle_bool y x.

(** ** The photogrammetry engine as seen by the reduction loops *)

Module Reduce.

(** [PhotoScan.PointCloud.Filter.*] *)
Inductive Criterion :=
| ReconstructionUncertainty
| ProjectionAccuracy
| ReprojectionError.

(** A tie point of [chunk.point_cloud.points]. *)
Record Point := { track_id : Z; selected : bool }.

(** Keyword arguments of [chunk.optimizeCameras]. *)
Record FitFlags := {
  fit_f : bool; fit_cx : bool; fit_cy : bool; fit_b1 : bool; fit_b2 : bool;
  fit_k1 : bool; fit_k2 : bool; fit_k3 : bool; fit_k4 : bool;
  fit_p1 : bool; fit_p2 : bool; fit_p3 : bool; fit_p4 : bool;
  adaptive_fitting : bool; tiepoint_covariance : bool
}.

(** The part of a chunk the loops read and write. [solution] stands for
    everything the engine owns (camera poses, calibrations, point
    coordinates). *)
Record Chunk (Solution : Type) := {
  point_cloud : list Point;
  solution : Solution;
  tiepoint_accuracy : Q
}.
Arguments point_cloud {Solution} _.
Arguments solution {Solution} _.
Arguments tiepoint_accuracy {Solution} _.

(** The engine's side of the contract: the value a filter criterion
    assigns to a tie point of a chunk, and the solution a camera
    optimisation arrives at. Neither adds nor removes tie points. *)
Class Engine := {
  Solution : Type;
  filter_value : Criterion -> Chunk Solution -> Z -> Q;
  optimize : FitFlags -> Chunk Solution -> Solution
}.

(** Mutating engine calls, in the order the script issues them. *)
Inductive Call :=
| CallSelectPoints (threshold : Q)
| CallResetSelection
| CallRemoveSelectedPoints
| CallOptimizeCameras (flags : FitFlags)
| SetTiepointAccuracy (value : Q).

Section WithEngine.
Context `{Engine}.

(** [fltr.init(chunk, criterion)]: one value per tie point, in the
    order of [chunk.point_cloud.points]. *)
Definition Filter_init (criterion : Criterion) (chunk : Chunk Solution) : list Q :=
  map (fun p => filter_value criterion chunk (track_id p)) (point_cloud chunk).

Definition qmax (a b : Q) : Q := if Qle_bool a b then b else a.

(** [fltr.max_value]; the engine reports 0 for an empty filter. *)
Definition max_value (values : list Q) : Q :=
  match values with
  | [] => 0
  | v :: rest => fold_left qmax rest v
  end.

(** [fltr.selectPoints(threshold)]: a point is selected when its value
    exceeds the threshold. *)
Definition mark (threshold : Q) (p : Point) (v : Q) : Point :=
  {| track_id := track_id p; selected := Qgt_bool v threshold |}.

Definition selectPoints (values : list Q) (threshold : Q)
    (chunk : Chunk Solution) : Chunk Solution :=
  {| point_cloud := zip_with (mark threshold) (point_cloud chunk) values;
     solution := solution chunk;
     tiepoint_accuracy := tiepoint_accuracy chunk |}.

(** [fltr.resetSelection()] *)
Definition resetSelection (chunk : Chunk Solution) : Chunk Solution :=
  {| point_cloud :=
       map (fun p => {| track_id := track_id p; selected := false |})
           (point_cloud chunk);
     solution := solution chunk;
     tiepoint_accuracy := tiepoint_accuracy chunk |}.

(** [tie_points.removeSelectedPoints()] *)
Definition removeSelectedPoints (chunk : Chunk Solution) : Chunk Solution :=
  {| point_cloud := List.filter (fun p => negb (selected p)) (point_cloud chunk);
     solution := solution chunk;
     tiepoint_accuracy := tiepoint_accuracy chunk |}.

(** [chunk.optimizeCameras(...)] *)
Definition optimizeCameras (flags : FitFlags) (chunk : Chunk Solution)
  : Chunk Solution :=
  {| point_cloud := point_cloud chunk;
     solution := optimize flags chunk;
     tiepoint_accuracy := tiepoint_accuracy chunk |}.

(** [chunk.tiepoint_accuracy = value] *)
Definition set_tiepoint_accuracy (value : Q) (chunk : Chunk Solution)
  : Chunk Solution :=
  {| point_cloud := point_cloud chunk;
     solution := solution chunk;
     tiepoint_accuracy := value |}.

(** [len([p for p in tie_points.points if p.selected])] *)
Definition nselected (chunk : Chunk Solution) : nat :=
  length (List.filter selected (point_cloud chunk)).

(** What distinguishes the three loops. [divisor] is the 2 or 10 of
    [nselected >= len(tie_points.points) / divisor]; [cap] is the bound
    of the [threshold <= cap] conjunct, absent in [ReduceError_RE]. *)
Record Policy := {
  criterion : Criterion;
  stop_value : Q;
  divisor : nat;
  cap : option Q;
  step : Q;
  flags : FitFlags
}.

(** Local variables of a loop, the chunk they act on, and the journal
    of the mutating calls made so far. *)
Record Run := {
  chunk : Chunk Solution;
  fltr : list Q;
  threshold : Q;
  journal : list Call
}.

(** The filter holds one value per tie point of the chunk. *)
Definition aligned (s : Run) : Prop :=
  length (fltr s) = length (point_cloud (chunk s)).

(** [while fltr.max_value > stop_value] *)
Definition loop_cond (P : Policy) (s : Run) : bool :=
  Qgt_bool (max_value (fltr s)) (stop_value P).

(** [nselected >= len(tie_points.points) / divisor], a comparison of an
    integer with a true quotient. *)
Definition too_many (P : Policy) (c : Chunk Solution) : bool :=
  (length (point_cloud c) <=? divisor P * nselected c)%nat.

(** [threshold <= cap] *)
Definition below_cap (P : Policy) (t : Q) : bool :=
  match cap P with
  | Some c => Qle_bool t c
  | None => true
  end.

(** One pass through the loop body. *)
Definition loop_body (P : Policy) (init_threshold : Q) (s : Run) : Run :=
  let c1 := selectPoints (fltr s) (threshold s) (chunk s) in
  if too_many P c1 && below_cap P (threshold s) then
    {| chunk := resetSelection c1;
       fltr := fltr s;
       threshold := threshold s + step P;
       journal := journal s ++
         [CallSelectPoints (threshold s); CallResetSelection] |}
  else
    let c3 := optimizeCameras (flags P) (removeSelectedPoints c1) in
    {| chunk := c3;
       fltr := Filter_init (criterion P) c3;
       threshold := init_threshold;
       journal := journal s ++
         [CallSelectPoints (threshold s); CallRemoveSelectedPoints;
          CallOptimizeCameras (flags P)] |}.

(** The [while] loop with a bound on the number of passes: [None] when
    the bound is used up with the condition still true. The second
    component counts the passes made. *)
Fixpoint while (fuel : nat) (cond : Run -> bool) (body : Run -> Run)
    (s : Run) : option (Run * nat) :=
  if cond s then
    match fuel with
    | O => None
    | S fuel' =>
        match while fuel' cond body (body s) with
        | Some (s', n) => Some (s', S n)
        | None => None
        end
    end
  else Some (s, O).

(** State on entry to the loop. *)
Definition enter (P : Policy) (init_threshold : Q) (c : Chunk Solution) : Run :=
  {| chunk := c;
     fltr := Filter_init (criterion P) c;
     threshold := init_threshold;
     journal := [] |}.

Definition reduce_loop (P : Policy) (fuel : nat) (init_threshold : Q)
    (c : Chunk Solution) : option (Run * nat) :=
  while fuel (loop_cond P) (loop_body P init_threshold) (enter P init_threshold c).

(** The run after [n] passes through the loop body. *)
Definition after_passes (P : Policy) (init_threshold : Q) (c : Chunk Solution)
    (n : nat) : Run :=
  Nat.iter n (loop_body P init_threshold) (enter P init_threshold c).

(** The two sets of [optimizeCameras] arguments used by the script. *)
Definition fit_basic : FitFlags :=
  {| fit_f := true; fit_cx := true; fit_cy := true; fit_b1 := false; fit_b2 := false;
     fit_k1 := true; fit_k2 := true; fit_k3 := true; fit_k4 := false;
     fit_p1 := true; fit_p2 := true; fit_p3 := false; fit_p4 := false;
     adaptive_fitting := false; tiepoint_covariance := false |}.

Definition fit_all : FitFlags :=
  {| fit_f := true; fit_cx := true; fit_cy := true; fit_b1 := true; fit_b2 := true;
     fit_k1 := true; fit_k2 := true; fit_k3 := true; fit_k4 := true;
     fit_p1 := true; fit_p2 := true; fit_p3 := true; fit_p4 := true;
     adaptive_fitting := false; tiepoint_covariance := false |}.

Definition RU : Policy :=
  {| criterion := ReconstructionUncertainty; stop_value := 10;
     divisor := 2; cap := Some 50; step := 1; flags := fit_basic |}.

Definition PA : Policy :=
  {| criterion := ProjectionAccuracy; stop_value := 2;
     divisor := 2; cap := Some 3; step := 1 # 10; flags := fit_basic |}.

Definition RE : Policy :=
  {| criterion := ReprojectionError; stop_value := 3 # 10;
     divisor := 10; cap := None; step := 1 # 100; flags := fit_all |}.

(** What a reduction function leaves behind. *)
Record Outcome := {
  final : Chunk Solution;
  calls : list Call;
  iterations : nat
}.

(** [ReduceError_RU(chunk, init_threshold=10)] *)
Definition ReduceError_RU (fuel : nat) (c : Chunk Solution) (init_threshold : Q)
  : option Outcome :=
  match reduce_loop RU fuel init_threshold c with
  | Some (s, n) => Some {| final := chunk s; calls := journal s; iterations := n |}
  | None => None
  end.

(** [ReduceError_PA(chunk, init_threshold=2.0)]: after the loop the
    tie-point accuracy is set to 0.1 and the cameras are optimised with
    every parameter fitted. *)
Definition ReduceError_PA (fuel : nat) (c : Chunk Solution) (init_threshold : Q)
  : option Outcome :=
  match reduce_loop PA fuel init_threshold c with
  | Some (s, n) =>
      Some {| final := optimizeCameras fit_all
                         (set_tiepoint_accuracy (1 # 10) (chunk s));
              calls := journal s ++
                [SetTiepointAccuracy (1 # 10); CallOptimizeCameras fit_all];
              iterations := n |}
  | None => None
  end.

(** [ReduceError_RE(chunk, init_threshold=0.3)] *)
Definition ReduceError_RE (fuel : nat) (c : Chunk Solution) (init_threshold : Q)
  : option Outcome :=
  match reduce_loop RE fuel init_threshold c with
  | Some (s, n) => Some {| final := chunk s; calls := journal s; iterations := n |}
  | None => None
  end.

(** Default values of [init_threshold]. *)
Definition RU_init : Q := 10.
Definition PA_init : Q := 2.
Definition RE_init : Q := 3 # 10.

End WithEngine.

(** A table-driven engine for closed examples: the solution is the table
    of metric values by track id, and optimisation leaves it as it is. *)
Definition table_engine : Engine :=
  {| Solution := Z -> Q;
     filter_value := fun _ c tid => solution c tid;
     optimize := fun _ c => solution c |}.

End Reduce.

(** ** Solar and view geometry *)

Module Geometry.

(** A band plane of a camera, as far as the script reads it: its identity
    as a dictionary key, [sensor.width], [sensor.height],
    [sensor.calibration.cx], [sensor.calibration.cy], [sensor.bands[0]]
    and [group.label] ([None] when [band.group] is [None]). *)
Record Band := {
  band_id : nat;
  sensor_width : nat;
  sensor_height : nat;
  calibration_cx : Q;
  calibration_cy : Q;
  sensor_band : string;
  group_label : option string
}.

(** A geodetic point: [LonLat[0]] is the longitude, [LonLat[1]] the
    latitude. *)
Definition LonLat : Type := Q * Q.

(** pysolar. *)
Class Solar := {
  Time : Type;
  get_altitude : Q -> Q -> Time -> Q;   (* latitude, longitude, time *)
  get_azimuth : Q -> Q -> Time -> Q
}.

(** What the engine and the math library compute for a band: the parsed
    [Exif/DateTimeOriginal] with a time zone attached, the geodetic
    position seen through a pixel ([GetPixelLocation], over the depth of
    [GetCameraDepth]), and the two [degrees(atan2(...))] of [GetViewAngle]
    for the ray of [GetProjectVector] turned by [GetWorldRotMatrix], before
    the azimuth is made non-negative. *)
Class Scene `{Solar} := {
  exif_datetime : bool -> Band -> Time;   (* UTC? *)
  GetPixelLocation : Q -> Q -> Band -> LonLat;
  ray_angles : nat -> nat -> Band -> Q * Q
}.

(** A numpy array indexed [row, column]. *)
Definition Array : Type := nat -> nat -> Q.

Definition zeros : Array := fun _ _ => 0.

(** [a[v, u] = x] *)
Definition aset (a : Array) (v u : nat) (x : Q) : Array :=
  fun v' u' => if (v' =? v)%nat && (u' =? u)%nat then x else a v' u'.

(** [[(u, v) for u in range(width) for v in range(height)]] *)
Definition pixels (width height : nat) : list (nat * nat) :=
  flat_map (fun u => map (fun v => (u, v)) (seq 0 height)) (seq 0 width).

Section WithScene.
Context `{Scene}.

Definition GetDateTime (UTC : bool) (camera : Band) : Time :=
  exif_datetime UTC camera.

Definition GetSunAngle (lonlat : LonLat) (time : Time) : Q * Q :=
  let Sun_zenith := 90 - get_altitude (snd lonlat) (fst lonlat) time in
  let Sun_azimuth_South := get_azimuth (snd lonlat) (fst lonlat) time in
  let Sun_azimuth := 180 - Sun_azimuth_South in
  let Sun_azimuth :=
    if Qge_bool (Qabs Sun_azimuth) 360 then Sun_azimuth - 360 else Sun_azimuth in
  (Sun_zenith, Sun_azimuth).

Definition GetViewAngle (u v : nat) (camera : Band) : Q * Q :=
  let '(View_zenith, View_azimuth) := ray_angles u v camera in
  let View_azimuth :=
    if Qgt_bool 0 View_azimuth then View_azimuth + 360 else View_azimuth in
  (View_zenith, View_azimuth).

(** Variables of the pixel loop of [CreateSunViewGeometryArrays]. *)
Record Angles := {
  Pixel_Sun_zenith : Q;
  Pixel_Sun_azimuth : Q;
  Sun_zenith : Array;
  Sun_azimuth : Array;
  View_zenith : Array;
  View_azimuth : Array
}.

(** Body of the pixel loop. *)
Definition angle_step (Pixelwise UTC : bool) (camera : Band) (st : Angles)
    (uv : nat * nat) : Angles :=
  let '(u, v) := uv in
  let '(sz, sa) :=
    if Pixelwise then
      GetSunAngle (GetPixelLocation (inject_Z (Z.of_nat u)) (inject_Z (Z.of_nat v)) camera)
                  (GetDateTime UTC camera)
    else (Pixel_Sun_zenith st, Pixel_Sun_azimuth st) in
  let '(vz, va) := GetViewAngle u v camera in
  {| Pixel_Sun_zenith := sz;
     Pixel_Sun_azimuth := sa;
     Sun_zenith := aset (Sun_zenith st) v u sz;
     Sun_azimuth := aset (Sun_azimuth st) v u sa;
     View_zenith := aset (View_zenith st) v u vz;
     View_azimuth := aset (View_azimuth st) v u va |}.

(** The pixel the sun angle is initialised from:
    [(width/2+cx, width/2+cy)]. *)
Definition initial_pixel (camera : Band) : Q * Q :=
  let width := inject_Z (Z.of_nat (sensor_width camera)) in
  (width / 2 + calibration_cx camera, width / 2 + calibration_cy camera).

(** The principal point of the sensor, [(width/2+cx, height/2+cy)]. *)
Definition centre_pixel (camera : Band) : Q * Q :=
  let width := inject_Z (Z.of_nat (sensor_width camera)) in
  let height := inject_Z (Z.of_nat (sensor_height camera)) in
  (width / 2 + calibration_cx camera, height / 2 + calibration_cy camera).

Definition CreateSunViewGeometryArrays (Pixelwise UTC : bool) (camera : Band)
  : Angles :=
  let width := sensor_width camera in
  let height := sensor_height camera in
  let DateTime := GetDateTime UTC camera in
  let geo_point :=
    GetPixelLocation (fst (initial_pixel camera)) (snd (initial_pixel camera)) camera in
  let '(sz, sa) := GetSunAngle geo_point DateTime in
  fold_left (angle_step Pixelwise UTC camera) (pixels width height)
    {| Pixel_Sun_zenith := sz; Pixel_Sun_azimuth := sa;
       Sun_zenith := zeros; Sun_azimuth := zeros;
       View_zenith := zeros; View_azimuth := zeros |}.

End WithScene.

(** A sun whose altitude is the latitude and whose south-referenced
    azimuth is the longitude, and a scene in which the pixel [(u, v)] looks
    at longitude [u] and latitude [v]. *)
Definition toy_solar : Solar :=
  {| Time := unit;
     get_altitude := fun lat _ _ => lat;
     get_azimuth := fun _ lon _ => lon |}.

Definition toy_scene : Scene (H := toy_solar) :=
  @Build_Scene toy_solar
    (fun _ _ => tt)
    (fun u v _ => (u, v))
    (fun u v _ => (inject_Z (Z.of_nat u), - inject_Z (Z.of_nat v))).

End Geometry.

(** ** File names

    [os.path] on a POSIX host ([posixpath]); strings are ASCII. *)

Module Paths.

Local Open Scope string_scope.

Definition slash : ascii := "/"%char.
Definition dot : ascii := "."%char.

(** Split at the last occurrence of [sep]: the text before it and the text
    after it. *)
Fixpoint rsplit (sep : ascii) (s : string) : option (string * string) :=
  match s with
  | EmptyString => None
  | String c s' =>
      match rsplit sep s' with
      | Some (a, b) => Some (String c a, b)
      | None => if Ascii.eqb c sep then Some (EmptyString, s') else None
      end
  end.

Fixpoint all_char (c : ascii) (s : string) : bool :=
  match s with
  | EmptyString => true
  | String a s' => Ascii.eqb a c && all_char c s'
  end.

(** [s.rstrip(c)] *)
Fixpoint rstrip (c : ascii) (s : string) : string :=
  match s with
  | EmptyString => EmptyString
  | String a s' =>
      match rstrip c s' with
      | EmptyString => if Ascii.eqb a c then EmptyString else String a EmptyString
      | r => String a r
      end
  end.

Definition startswith (c : ascii) (s : string) : bool :=
  match s with
  | String a _ => Ascii.eqb a c
  | EmptyString => false
  end.

Fixpoint endswith (c : ascii) (s : string) : bool :=
  match s with
  | EmptyString => false
  | String a EmptyString => Ascii.eqb a c
  | String _ s' => endswith c s'
  end.

(** [os.path.split] *)
Definition split (p : string) : string * string :=
  match rsplit slash p with
  | None => (EmptyString, p)
  | Some (a, tail) =>
      let head := a ++ "/" in
      (if all_char slash head then head else rstrip slash head, tail)
  end.

(** [os.path.splitext]: the extension starts at the last dot of the last
    component, unless only dots precede it there. *)
Definition splitext (p : string) : string * string :=
  let '(dir, name) :=
    match rsplit slash p with
    | None => (EmptyString, p)
    | Some (a, b) => (a ++ "/", b)
    end in
  match rsplit dot name with
  | None => (p, EmptyString)
  | Some (stem, e) =>
      if all_char dot stem then (p, EmptyString)
      else (dir ++ stem, String dot e)
  end.

(** [os.path.join(a, b)] *)
Definition join (a b : string) : string :=
  if startswith slash b then b
  else if String.eqb a EmptyString || endswith slash a then a ++ b
  else a ++ "/" ++ b.

(** [c.lower()] on ASCII. *)
Definition lower_ascii (c : ascii) : ascii :=
  let n := nat_of_ascii c in
  if (65 <=? n)%nat && (n <=? 90)%nat then ascii_of_nat (n + 32) else c.

Fixpoint lower (s : string) : string :=
  match s with
  | EmptyString => EmptyString
  | String c s' => String (lower_ascii c) (lower s')
  end.

(** [s.split(sep)] *)
Fixpoint split_on (sep : ascii) (s : string) : list string :=
  match s with
  | EmptyString => [EmptyString]
  | String c s' =>
      if Ascii.eqb c sep then EmptyString :: split_on sep s'
      else match split_on sep s' with
           | w :: ws => String c w :: ws
           | [] => [String c EmptyString]
           end
  end.

(** [sep.join(parts)] *)
Fixpoint join_with (sep : string) (parts : list string) : string :=
  match parts with
  | [] => EmptyString
  | [w] => w
  | w :: ws => w ++ sep ++ join_with sep ws
  end.

(** Loop body of [os.path.normpath]; [new_comps] is kept last component
    first. *)
Definition norm_step (initial_slashes : nat) (new_comps : list string)
    (comp : string) : list string :=
  if String.eqb comp "" || String.eqb comp "." then new_comps
  else if negb (String.eqb comp "..")
          || ((initial_slashes =? 0)%nat && bool_decide (new_comps = []))
          || match new_comps with
             | top :: _ => String.eqb top ".."
             | [] => false
             end
       then comp :: new_comps
       else tail new_comps.

Definition normpath (path : string) : string :=
  match path with
  | EmptyString => "."
  | _ =>
      let initial_slashes :=
        match path with
        | String "/" (String "/" (String "/" _)) => 1%nat
        | String "/" (String "/" _) => 2%nat
        | String "/" _ => 1%nat
        | _ => 0%nat
        end in
      let comps := fold_left (norm_step initial_slashes) (split_on slash path) [] in
      let joined := join_with "/" (rev comps) in
      let result :=
        match initial_slashes with
        | 0%nat => joined
        | 1%nat => "/" ++ joined
        | _ => "//" ++ joined
        end in
      match result with
      | EmptyString => "."
      | _ => result
      end
  end.

(** [os.path.abspath], the working directory being [cwd]. *)
Definition abspath (cwd path : string) : string :=
  normpath (if startswith slash path then path else join cwd path).

End Paths.

(** ** BRDF correction *)

Module Correction.

Import Match Geometry.

(** Exceptions. [InsufficientSamples] is the error kind of the
    specification; no statement of the script raises it. *)
Inductive PyError :=
| KeyError
| IndexError
| ValueError
| InsufficientSamples.

Inductive Res (A : Type) :=
| Ok (a : A)
| Raise (e : PyError).
Arguments Ok {A} _.
Arguments Raise {A} _.

#[export] Instance res_ret : MRet Res := fun A a => Ok a.
#[export] Instance res_bind : MBind Res := fun A B f m =>
  match m with
  | Ok a => f a
  | Raise e => Raise e
  end.


(** [d[k]] *)
Definition getitem `{Countable K} {V} (d : gmap K V) (k : K) : Res V :=
  match d !! k with
  | Some v => Ok v
  | None => Raise KeyError
  end.

(** What a library call that can raise [ValueError] returns. *)
Definition or_ValueError {A} (r : option A) : Res A :=
  match r with
  | Some a => Ok a
  | None => Raise ValueError
  end.

(** [Image.data_type] of the engine and the numpy types of the script's
    [datatype] table. *)
Inductive DataType := U8 | U16 | U32 | F16 | F32 | F64.
Inductive NpType := uint8 | uint16 | uint32 | float32 | float64.

(** [datatype[PhotoScan_Imtype]] *)
Definition datatype (t : DataType) : Res NpType :=
  match t with
  | U8 => Ok uint8
  | U16 => Ok uint16
  | U32 => Ok uint32
  | F32 => Ok float32
  | F64 => Ok float64
  | F16 => Raise KeyError
  end.

(** [np.iinfo(Imtype).max], or [np.finfo(Imtype).max] when [np.iinfo]
    raises [ValueError]; likewise for [min]. *)
Definition dtype_max (t : NpType) : Q :=
  match t with
  | uint8 => 255
  | uint16 => 65535
  | uint32 => 4294967295
  | float32 => inject_Z ((2 ^ 24 - 1) * 2 ^ 104)
  | float64 => inject_Z ((2 ^ 53 - 1) * 2 ^ 971)
  end.

Definition dtype_min (t : NpType) : Q :=
  match t with
  | uint8 | uint16 | uint32 => 0
  | float32 | float64 => - dtype_max t
  end.

(** An element of [np.clip(a, lo, hi)]: [minimum(maximum(x, lo), hi)]. *)
Definition clip (lo hi x : Q) : Q :=
  let y := if Qle_bool lo x then x else lo in
  if Qle_bool y hi then y else hi.

(** A single-channel [PhotoScan.Image]; [pixel u v] is [Image[u, v][0]]. *)
Record PSImage := {
  im_width : nat;
  im_height : nat;
  data_type : DataType;
  pixel : nat -> nat -> Q
}.

(** [int(x)]: truncation towards zero. *)
Definition py_int (x : Q) : Z :=
  if Qle_bool 0 x then Qfloor x else Qceiling x.

(** An index into an image or an array. Projections have non-negative
    coordinates; negative indices are not modelled. *)
Definition index (x : Q) : nat := Z.to_nat (py_int x).

(** A linear model: [coef_] and [intercept_]. *)
Record Linear2 := { coef_0 : Q; coef_1 : Q; intercept_ : Q }.
Record Linear3 := { w_0 : Q; w_1 : Q; w_2 : Q }.

(** scikit-learn and numpy's cosine. A fit returns [None] when the library
    raises [ValueError]. [dbscan_labels] is [DBSCAN(eps=5000).fit(X).labels_]. *)
Class Learn := {
  GMM : Type;
  gmm_fit : list Q -> GMM;
  gmm_predict : GMM -> Q -> nat;
  cos_radians : Q -> Q;
  linear_fit : list (Q * Q) -> list Q -> option Linear2;
  linear_fit_no_intercept : list (Q * Q * Q) -> list Q -> option Linear3;
  dbscan_labels : list (Q * Q * Q) -> list Z
}.

(** A row of [BRDFArray[i]]. *)
Record Row := {
  row_u : Q; row_v : Q; row_y : Q; row_x1 : Q; row_x2 : Q;
  row_coef0 : Q; row_coef1 : Q; row_intercept : Q
}.

Section WithLearn.
Context `{Learn}.

(** The angle arrays of every band: [Sun_azimuth], [View_zenith],
    [View_azimuth]. *)
Record AngleTables := {
  tbl_Sun_azimuth : gmap nat Array;
  tbl_View_zenith : gmap nat Array;
  tbl_View_azimuth : gmap nat Array
}.

(** One sample of [MultiLinearRegression]. *)
Definition regression_sample (photos : nat -> PSImage) (T : AngleTables)
    (entry : nat * Coord) : Res (Q * Q * Q) :=
  let '(camera, coord) := entry in
  let u := index (fst coord) in
  let v := index (snd coord) in
  View_zenith ← getitem (tbl_View_zenith T) camera;
  View_azimuth ← getitem (tbl_View_azimuth T) camera;
  Sun_azimuth ← getitem (tbl_Sun_azimuth T) camera;
  let x1 := View_zenith v u in
  let x2 := View_azimuth v u in
  let x3 := Sun_azimuth v u in
  let y := pixel (photos camera) u v in
  mret (x1 * x1, x1 * cos_radians (x2 - x3), y).

Definition MultiLinearRegression (photos : nat -> PSImage)
    (point_match : gmap nat Coord) (T : AngleTables) : Res Linear2 :=
  samples ← mapM (regression_sample photos T) (map_to_list point_match);
  or_ValueError
    (linear_fit (map (fun s => (s.1.1, s.1.2)) samples) (map (fun s => s.2) samples)).

(** [SearchForOutliers]. An empty [BRDFArray[i]] becomes a one-dimensional
    array, for which [data[:, 5:8]] raises [IndexError]. *)
Definition SearchForOutliers (data : list Row) : Res (list Row) :=
  match data with
  | [] => Raise IndexError
  | _ =>
      let labels :=
        dbscan_labels (map (fun r => (row_coef0 r, row_coef1 r, row_intercept r)) data) in
      Ok (map fst (List.filter (fun rl => negb (snd rl =? -1)%Z) (zip data labels)))
  end.

(** [clf.predict] of a model fitted without intercept. *)
Definition predict (clf : Linear3) (y x1 x2 : Q) : Q :=
  w_0 clf * y + w_1 clf * x1 + w_2 clf * x2.

Definition ZenithPredict (Image_array : Array) (features : nat -> nat -> nat)
    (Sun_azimuth View_zenith View_azimuth : Array) (clf0 clf1 : Linear3) : Array :=
  fun v u =>
    let x1 := View_zenith v u * View_zenith v u in
    let x2 := View_zenith v u * cos_radians (View_azimuth v u - Sun_azimuth v u) in
    let New_image0 := predict clf0 (Image_array v u) x1 x2 in
    let New_image1 := predict clf1 (Image_array v u) x1 x2 in
    if (features v u =? 0)%nat then New_image0 else New_image1.

(** [Image_array.reshape(-1, 1)], row by row. *)
Definition flatten (width height : nat) (a : Array) : list Q :=
  flat_map (fun v => map (fun u => a v u) (seq 0 width)) (seq 0 height).

Definition ImageGaussianMixture (width height : nat) (image : Array) : GMM :=
  gmm_fit (flatten width height image).

(** Body of the tie-point loop of [BRDFImage]. *)
Definition tie_point_row (photos : nat -> PSImage) (camera : Band)
    (point_matches : PointMatches) (T : AngleTables) (gmm : GMM)
    (acc : list Row * list Row) (entry : nat * Coord)
  : Res (list Row * list Row) :=
  let '(point_index, coords) := entry in
  let u := index (fst coords) in
  let v := index (snd coords) in
  point_match ← getitem point_matches point_index;
  model ← MultiLinearRegression photos point_match T;
  View_zenith ← getitem (tbl_View_zenith T) (band_id camera);
  View_azimuth ← getitem (tbl_View_azimuth T) (band_id camera);
  Sun_azimuth ← getitem (tbl_Sun_azimuth T) (band_id camera);
  let theta := View_zenith v u in
  let phi_v := View_azimuth v u in
  let phi_s := Sun_azimuth v u in
  let y := pixel (photos (band_id camera)) u v in
  let x1 := theta * theta in
  let x2 := theta * cos_radians (phi_v - phi_s) in
  let row :=
    {| row_u := fst coords; row_v := snd coords; row_y := y;
       row_x1 := x1; row_x2 := x2;
       row_coef0 := coef_0 model; row_coef1 := coef_1 model;
       row_intercept := intercept_ model |} in
  if (gmm_predict gmm y =? 0)%nat
  then mret (acc.1 ++ [row], acc.2)
  else mret (acc.1, acc.2 ++ [row]).

(** [for ... : acc = body(acc, x)] in the exception monad. *)
Fixpoint foldlM {A B} (f : A -> B -> Res A) (acc : A) (l : list B) : Res A :=
  match l with
  | [] => Ok acc
  | x :: l' => acc' ← f acc x; foldlM f acc' l'
  end.

(** The global fit of one feature: a model without intercept from the
    columns 2, 3, 4 to the column 7 of the denoised rows. *)
Definition fit_feature (denoised : list Row) : Res Linear3 :=
  or_ValueError
    (linear_fit_no_intercept
       (map (fun r => (row_y r, row_x1 r, row_x2 r)) denoised)
       (map row_intercept denoised)).

(** The image handed back: created blank with the sensor's size and the
    source's data type, then filled pixel by pixel. *)
Definition emit (width height : nat) (t : DataType) (a : Array) : PSImage :=
  {| im_width := width; im_height := height; data_type := t;
     pixel := fold_left (fun px uv => aset px (fst uv) (snd uv) (a (snd uv) (fst uv)))
                (pixels width height) zeros |}.

(** [BRDFImage] up to the end of the tie-point loop: the numpy type of
    the image, the fitted mixture, [Image_array] and [BRDFArray]. *)
Record Sampled := {
  s_Imtype : NpType;
  s_gmm : GMM;
  s_Image_array : Array;
  s_BRDFArray : list Row * list Row
}.

Definition sample_tie_points (photos : nat -> PSImage) (camera : Band)
    (camera_matches : CameraMatches) (point_matches : PointMatches)
    (T : AngleTables) : Res Sampled :=
  let width := sensor_width camera in
  let height := sensor_height camera in
  let Image := photos (band_id camera) in
  let Image_array :=
    fold_left (fun a uv => aset a (snd uv) (fst uv) (pixel Image (fst uv) (snd uv)))
      (pixels width height) zeros in
  Imtype ← datatype (data_type Image);
  let gmm := ImageGaussianMixture width height Image_array in
  matches ← getitem camera_matches (band_id camera);
  BRDFArray ← foldlM (tie_point_row photos camera point_matches T gmm)
                ([], []) (map_to_list matches);
  mret {| s_Imtype := Imtype; s_gmm := gmm; s_Image_array := Image_array;
          s_BRDFArray := BRDFArray |}.

(** [BRDFImage] from the fitted models on: prediction, clipping and the
    image handed back. *)
Definition synthesize (camera : Band) (t : DataType) (S : Sampled)
    (T : AngleTables) (clf0 clf1 : Linear3) : Res PSImage :=
  let features := fun v u => gmm_predict (s_gmm S) (s_Image_array S v u) in
  Sun_azimuth ← getitem (tbl_Sun_azimuth T) (band_id camera);
  View_zenith ← getitem (tbl_View_zenith T) (band_id camera);
  View_azimuth ← getitem (tbl_View_azimuth T) (band_id camera);
  let BRDFZenithArray :=
    ZenithPredict (s_Image_array S) features Sun_azimuth View_zenith View_azimuth
      clf0 clf1 in
  let clipped := fun v u =>
    clip (dtype_min (s_Imtype S)) (dtype_max (s_Imtype S)) (BRDFZenithArray v u) in
  mret (emit (sensor_width camera) (sensor_height camera) t clipped).

Definition BRDFImage (photos : nat -> PSImage) (camera : Band)
    (camera_matches : CameraMatches) (point_matches : PointMatches)
    (T : AngleTables) : Res PSImage :=
  S ← sample_tie_points photos camera camera_matches point_matches T;
  denoised0 ← SearchForOutliers (s_BRDFArray S).1;
  denoised1 ← SearchForOutliers (s_BRDFArray S).2;
  clf0 ← fit_feature denoised0;
  clf1 ← fit_feature denoised1;
  synthesize camera (data_type (photos (band_id camera))) S T clf0 clf1.

End WithLearn.

(** *** The per-band loop of [BRDFCorrection] *)

(** What the script changes of a band: the photo it has open and whether
    the band is enabled. *)
Record BandState := {
  photo_path : string;
  photo : PSImage;
  enabled : bool
}.

(** Image files on disk and the state of every band. *)
Record World := {
  files : gmap string PSImage;
  bands : nat -> BandState
}.

Definition set_band (w : World) (k : nat) (b : BandState) : World :=
  {| files := files w;
     bands := fun k' => if (k' =? k)%nat then b else bands w k' |}.

(** [band.photo.open(path, 0)]: the band's photo becomes the image stored
    at [path]. *)
Definition photo_open (w : World) (k : nat) (path : string) : World :=
  set_band w k
    {| photo_path := path;
       photo := default (photo (bands w k)) (files w !! path);
       enabled := enabled (bands w k) |}.

(** [New_Image.save(path)] *)
Definition image_save (w : World) (path : string) (image : PSImage) : World :=
  {| files := <[path := image]> (files w); bands := bands w |}.

(** [band.enabled = False] *)
Definition disable (w : World) (k : nat) : World :=
  set_band w k
    {| photo_path := photo_path (bands w k);
       photo := photo (bands w k);
       enabled := false |}.

(** [os.path.exists(path)] *)
Definition path_exists (w : World) (path : string) : bool :=
  bool_decide (is_Some (files w !! path)).

(** The tie-point tables by band name and the angle arrays by band. *)
Record Tables := {
  camera_matches_of : gmap string CameraMatches;
  point_matches_of : gmap string PointMatches;
  angle_tables : AngleTables
}.

(** How the loop left a band. [PassedOver]: the band has a camera group
    other than the calibration group, so that the [try] body ends without
    an exception and the handler holding the rest of the loop body does
    not run. *)
Inductive Action :=
| SkippedCalibration
| PassedOver
| SkippedSamePath
| Reopened
| Corrected
| Disabled.

(** [filename_formatted] *)
Definition filename_formatted (cwd filename : string) : string :=
  Paths.abspath cwd filename.

(** [new_path] *)
Definition new_path (outpath filename : string) : string :=
  let '(image_path, image_nameext) := Paths.split filename in
  let '(image_name, ext) := Paths.splitext image_nameext in
  Paths.join outpath (image_name ++ Paths.lower ext).

(** [new_filename_formatted] *)
Definition new_filename_formatted (cwd outpath filename : string) : string :=
  let '(image_path, image_nameext) := Paths.split filename in
  Paths.abspath cwd (Paths.join (new_path outpath filename) image_nameext).

Section WithLearn2.
Context `{Learn}.

(** The call [BRDFImage(chunk, band, camera_matches[band_name],
    point_matches[band_name], Sun_azimuth, View_zenith, View_azimuth)]. *)
Definition band_image (tables : Tables) (w : World) (band : Band) : Res PSImage :=
  let band_name := sensor_band band in
  camera_matches ← getitem (camera_matches_of tables) band_name;
  point_matches ← getitem (point_matches_of tables) band_name;
  BRDFImage (fun k => photo (bands w k)) band camera_matches point_matches
    (angle_tables tables).

(** Body of the loop [for band in ...] that writes the corrected images. *)
Definition correct_band (cwd outpath : string) (tables : Tables) (w : World)
    (band : Band) : Res (World * Action) :=
  let k := band_id band in
  let filename := photo_path (bands w k) in
  match group_label band with
  | Some label =>
      if String.eqb label "Calibration images"
      then Ok (w, SkippedCalibration)
      else Ok (w, PassedOver)
  | None =>
      if String.eqb (filename_formatted cwd filename)
                    (new_filename_formatted cwd outpath filename)
      then Ok (w, SkippedSamePath)
      else if path_exists w (new_path outpath filename)
      then Ok (photo_open w k (new_path outpath filename), Reopened)
      else
        match band_image tables w band with
        | Ok New_Image =>
            Ok (photo_open (image_save w (new_path outpath filename) New_Image)
                  k (new_path outpath filename),
                Corrected)
        | Raise ValueError => Ok (disable w k, Disabled)
        | Raise e => Raise e
        end
  end.

(** A camera of the chunk with its band planes, and the chunk. *)
Record ChunkCamera := { camera_id : nat; camera_planes : list Band }.

Record Chunk := {
  label : string;
  cameras : list ChunkCamera;
  track_ids : list Z;
  projections : nat -> list Projection
}.

Definition match_cameras (chunk : Chunk) : list Match.Camera :=
  map (fun c => {| cam_key := camera_id c; planes := map band_id (camera_planes c) |})
      (cameras chunk).

(** [[band for camera in chunk.cameras for band in camera.planes]] *)
Definition all_bands (chunk : Chunk) : list Band :=
  flat_map camera_planes (cameras chunk).

(** [outpath] *)
Definition outpath_of (doc_path : string) (chunk : Chunk) : string :=
  let '(work_path, project_file) := Paths.split doc_path in
  let '(project_name, ext) := Paths.splitext project_file in
  Paths.join work_path
    (Paths.join_with "." [project_name; label chunk; "BRDF_corrected"%string]).

Context `{Scene}.

(** The tables filled by the first two loops. *)
Definition build_tables (Pixelwise UTC : bool) (chunk : Chunk)
    (band_names : list string) : Tables :=
  let matched :=
    imap (fun index band_name =>
            (band_name,
             let '(cameras, points) :=
               GetPointMatchList (track_ids chunk) (match_cameras chunk)
                 (projections chunk) (Some index) in
             CollateMatchList cameras points))
         band_names in
  let angles :=
    map (fun band => (band_id band, CreateSunViewGeometryArrays Pixelwise UTC band))
        (all_bands chunk) in
  {| camera_matches_of :=
       fold_left (fun d e => <[e.1 := e.2.1]> d) matched ∅;
     point_matches_of :=
       fold_left (fun d e => <[e.1 := e.2.2]> d) matched ∅;
     angle_tables :=
       {| tbl_Sun_azimuth :=
            fold_left (fun d e => <[e.1 := Sun_azimuth e.2]> d) angles ∅;
          tbl_View_zenith :=
            fold_left (fun d e => <[e.1 := View_zenith e.2]> d) angles ∅;
          tbl_View_azimuth :=
            fold_left (fun d e => <[e.1 := View_azimuth e.2]> d) angles ∅ |} |}.

Definition BRDFCorrection (Pixelwise UTC : bool) (cwd doc_path : string)
    (chunk : Chunk) (w : World) : Res (World * list Action) :=
  let outpath := outpath_of doc_path chunk in
  first ← match cameras chunk with
          | [] => Raise IndexError
          | camera :: _ => Ok camera
          end;
  let tables := build_tables Pixelwise UTC chunk (map sensor_band (camera_planes first)) in
  foldlM (fun acc band =>
            r ← correct_band cwd outpath tables acc.1 band;
            mret (r.1, acc.2 ++ [r.2]))
         (w, []) (all_bands chunk).

End WithLearn2.

End Correction.

(** ** Concrete tie-point sets *)

Module Examples.

Import Reduce.

Definition tie_point (tid : Z) : Point := {| track_id := tid; selected := false |}.

(** Three tie points with reconstruction uncertainties 20.5, 20.5 and 1. *)
Definition stall_table (tid : Z) : Q :=
  if (tid =? 3)%Z then 1 else 41 # 2.

Definition stall_chunk : Chunk (Z -> Q) :=
  {| point_cloud := [tie_point 1; tie_point 2; tie_point 3];
     solution := stall_table;
     tiepoint_accuracy := 1 |}.

(** Two tie points, both with reconstruction uncertainty 100. *)
Definition steep_chunk : Chunk (Z -> Q) :=
  {| point_cloud := [tie_point 1; tie_point 2];
     solution := fun _ => 100;
     tiepoint_accuracy := 1 |}.

(** Three tie points whose every metric is at most 9 # 100. *)
Definition calm_chunk : Chunk (Z -> Q) :=
  {| point_cloud := [tie_point 1; tie_point 2; tie_point 3];
     solution := fun tid => inject_Z tid * (3 # 100);
     tiepoint_accuracy := 1 |}.

(** Four tie points with reconstruction uncertainties 5, 6, 7 and 30. *)
Definition spiky_chunk : Chunk (Z -> Q) :=
  {| point_cloud := [tie_point 5; tie_point 6; tie_point 7; tie_point 30];
     solution := inject_Z;
     tiepoint_accuracy := 1 |}.

(** Four tie points with projection accuracies 1, 1, 1 and 5. *)
Definition skew_chunk : Chunk (Z -> Q) :=
  {| point_cloud := [tie_point 1; tie_point 2; tie_point 3; tie_point 4];
     solution := fun tid => if (tid =? 4)%Z then 5 else 1;
     tiepoint_accuracy := 1 |}.

(** A sensor four pixels wide and three pixels high, principal point at
    the centre, in no camera group. *)
Definition wide_band : Geometry.Band :=
  {| Geometry.band_id := 0; Geometry.sensor_width := 4; Geometry.sensor_height := 3;
     Geometry.calibration_cx := 0; Geometry.calibration_cy := 0;
     Geometry.sensor_band := "NIR"; Geometry.group_label := None |}.

(** scikit-learn in miniature: the mixture separates intensities at 100;
    a fit raises [ValueError] for an empty sample and otherwise returns a
    fixed model; DBSCAN, whose core points need five samples, labels fewer
    than five samples as noise and five or more (all within [eps]) as
    cluster 0. *)
Definition toy_learn : Correction.Learn :=
  {| Correction.GMM := unit;
     Correction.gmm_fit := fun _ => tt;
     Correction.gmm_predict := fun _ y => if Qle_bool y 100 then 0%nat else 1%nat;
     Correction.cos_radians := fun _ => 1;
     Correction.linear_fit := fun X Y =>
       match X with
       | [] => None
       | _ => Some {| Correction.coef_0 := 0; Correction.coef_1 := 0;
                      Correction.intercept_ := hd 0 Y |}
       end;
     Correction.linear_fit_no_intercept := fun X Y =>
       match X with
       | [] => None
       | _ => Some {| Correction.w_0 := 2; Correction.w_1 := 0; Correction.w_2 := 0 |}
       end;
     Correction.dbscan_labels := fun X =>
       repeat (if (length X <? 5)%nat then (-1)%Z else 0%Z) (length X) |}.

(** An 8-bit image four pixels wide and three high: intensity 50 in the
    left half, 200 in the right half. *)
Definition half_image : Correction.PSImage :=
  {| Correction.im_width := 4; Correction.im_height := 3;
     Correction.data_type := Correction.U8;
     Correction.pixel := fun u _ => if (u <? 2)%nat then 50 else 200 |}.

(** Band planes 0, 1 and 2 of a 4 x 3 sensor, in no camera group. *)
Definition plane (k : nat) : Geometry.Band :=
  {| Geometry.band_id := k; Geometry.sensor_width := 4; Geometry.sensor_height := 3;
     Geometry.calibration_cx := 0; Geometry.calibration_cy := 0;
     Geometry.sensor_band := "NIR"; Geometry.group_label := None |}.

(** The same plane in a camera group. *)
Definition grouped_plane (k : nat) (name : string) : Geometry.Band :=
  {| Geometry.band_id := k; Geometry.sensor_width := 4; Geometry.sensor_height := 3;
     Geometry.calibration_cx := 0; Geometry.calibration_cy := 0;
     Geometry.sensor_band := "NIR"; Geometry.group_label := Some name |}.

(** Tie point [i] projects to the pixel [(i mod 4, i / 4)] of all three
    planes. *)
Definition coord_of (i : nat) : Match.Coord :=
  (inject_Z (Z.of_nat (i mod 4)), inject_Z (Z.of_nat (i / 4))).

Definition camera_table (ids : list nat) : gmap nat (gmap nat Match.Coord) :=
  list_to_map
    (map (fun k => (k, list_to_map (map (fun i => (i, coord_of i)) ids))) [0; 1; 2]%nat).

Definition point_table (ids : list nat) : gmap nat (gmap nat Match.Coord) :=
  list_to_map
    (map (fun i => (i, list_to_map (map (fun k => (k, coord_of i)) [0; 1; 2]%nat))) ids).

Definition flat_angles : Correction.AngleTables :=
  let t : gmap nat Geometry.Array :=
    list_to_map (map (fun k => (k, Geometry.zeros)) [0; 1; 2]%nat) in
  {| Correction.tbl_Sun_azimuth := t;
     Correction.tbl_View_zenith := t;
     Correction.tbl_View_azimuth := t |}.

Definition tables_for (ids : list nat) : Correction.Tables :=
  {| Correction.camera_matches_of := {[ "NIR"%string := camera_table ids ]};
     Correction.point_matches_of := {[ "NIR"%string := point_table ids ]};
     Correction.angle_tables := flat_angles |}.

(** Every pixel a tie point; a dark and a bright tie point only; dark tie
    points only. *)
Definition dense_ids : list nat := seq 0 12.
Definition sparse_ids : list nat := [0; 2]%nat.
Definition dark_ids : list nat := [0; 1; 4; 5; 8]%nat.

(** Three photos on disk, none corrected yet. *)
Definition source_path (k : nat) : string :=
  match k with
  | 0%nat => "/data/flight/IMG_0001.TIF"
  | 1%nat => "/data/flight/IMG_0002.TIF"
  | _ => "/data/flight/IMG_0003.TIF"
  end.

Definition fresh_world : Correction.World :=
  {| Correction.files := ∅;
     Correction.bands := fun k =>
       {| Correction.photo_path := source_path k;
          Correction.photo := half_image;
          Correction.enabled := true |} |}.

Definition outpath : string := "/data/project.Chunk 1.BRDF_corrected".

(** The photos the bands have open before any correction. *)
Definition open_photos : nat -> Correction.PSImage :=
  fun k => Correction.photo (Correction.bands fresh_world k).

(** The first photo already corrected and on disk. *)
Definition stocked_world : Correction.World :=
  Correction.image_save fresh_world
    "/data/project.Chunk 1.BRDF_corrected/IMG_0001.tif" half_image.

(** The first photo lying in a directory named after its own
    destination. *)
Definition nested_world : Correction.World :=
  Correction.set_band fresh_world 0
    {| Correction.photo_path :=
         "/data/project.Chunk 1.BRDF_corrected/IMG_0001.tif/IMG_0001.TIF";
       Correction.photo := half_image;
       Correction.enabled := true |}.

(** Four single-plane cameras and three tie points with track ids 10, 20
    and 30; the cameras 2 and 3 do not observe track 20. *)
Definition four_cameras : list Match.Camera :=
  map (fun k => {| Match.cam_key := k; Match.planes := [k] |}) [0; 1; 2; 3]%nat.

Definition seen (tid : Z) : Match.Projection :=
  {| Match.proj_track_id := tid; Match.proj_coord := (inject_Z tid, 1) |}.

Definition four_projections (key : nat) : list Match.Projection :=
  if (key <? 2)%nat then [seen 10; seen 20; seen 30] else [seen 10; seen 30].

Definition four_matches
  : gmap nat (gmap nat Match.Coord) * gmap nat (gmap nat Match.Coord) :=
  Match.GetPointMatchList [10; 20; 30]%Z four_cameras four_projections (Some 0%nat).

(** Three single-plane cameras that all observe the tie points [ids] of
    twelve. *)
Definition three_cameras (ids : list nat) : Correction.Chunk :=
  {| Correction.label := "Chunk 1";
     Correction.cameras :=
       map (fun k => {| Correction.camera_id := k;
                        Correction.camera_planes := [plane k] |}) [0; 1; 2]%nat;
     Correction.track_ids := map Z.of_nat (seq 0 12);
     Correction.projections := fun _ =>
       map (fun i => {| Match.proj_track_id := Z.of_nat i;
                        Match.proj_coord := coord_of i |}) ids |}.

(** The run of the RU loop on a chunk after [n] passes. *)
Definition RU_after (n : nat) (c : Chunk (Z -> Q)) : Run (H := table_engine) :=
  after_passes (H := table_engine) RU RU_init c n.

End Examples.

(** ** Reading the correspondence tables *)

Module Tables.

Import Match.

(** [t[a][b]], [None] when either key is missing. *)
Definition observation (t : gmap nat (gmap nat Coord)) (a b : nat) : option Coord :=
  t !! a ≫= (fun d => d !! b).

(** The keys under which [GetPointMatchList] files the cameras. *)
Definition band_keys (cameras : list Camera) (band : option nat) : list nat :=
  map (fun camera => band_key camera band) cameras.

(** The [NIR_only] block of [StandardWorkflow]: the [valid] flags of the
    tie points after
    [enabled_points = [int(i) for i in sorted(points.keys())]],
    [disabled_points = list(set(range(npoints)) - set(enabled_points))] and
    [tie_points[point_index].valid = False] for each disabled index. *)
Definition disable_unmatched (valid : list bool) (points : PointMatches)
  : list bool :=
  let npoints := length valid in
  let enabled_points : gset nat := dom points in
  let disabled_points :=
    elements (list_to_set (seq 0 npoints) ∖ enabled_points : gset nat) in
  foldl (fun flags point_index => <[point_index := false]> flags) valid
    disabled_points.

(** [GetPointMatchList(chunk, 3)], [CollateMatchList] and the loop above. *)
Definition NIR_only_valid (track_ids : list Z) (cameras : list Camera)
    (point_proj : nat -> list Projection) (valid : list bool) : list bool :=
  let '(cameras', points') :=
    GetPointMatchList track_ids cameras point_proj (Some 3%nat) in
  let '(cameras'', points'') := CollateMatchList cameras' points' in
  disable_unmatched valid points''.

End Tables.

(** ** Chunk labels and file names *)

Module Text.

Local Open Scope string_scope.

(** [needle in hay] for strings. *)
Fixpoint contains (needle hay : string) : bool :=
  String.prefix needle hay ||
  match hay with
  | EmptyString => false
  | String _ rest => contains needle rest
  end.

(** ['_DEM' in chunk.label], the test by which [StandardWorkflow] skips a
    chunk. *)
Definition is_DEM_chunk (label : string) : bool := contains "_DEM" label.

(** [chunk.label + '_DEM'], the label [StandardWorkflow] gives to the copy
    it makes for the DEM. *)
Definition DEM_label (label : string) : string := label ++ "_DEM".

(** [c in s] for a character. *)
Fixpoint has_char (c : ascii) (s : string) : bool :=
  match s with
  | EmptyString => false
  | String a rest => Ascii.eqb a c || has_char c rest
  end.

End Text.

(** ** Further concrete inputs *)

Module MoreExamples.

Import Match.

(** Four cameras of four band planes each: camera [c] has the planes
    [4c .. 4c+3]. *)
Definition nir_cameras : list Camera :=
  map (fun c => {| cam_key := (4 * c)%nat;
                   planes := map (fun b => (4 * c + b)%nat) [0; 1; 2; 3]%nat |})
      [0; 1; 2; 3]%nat.

(** The band of index 3 of the cameras 0, 1, 2 and 3 has the keys 3, 7, 11
    and 15. Track 10 is seen in all four, track 30 in the first three,
    track 20 in the last only. *)
Definition nir_projections (key : nat) : list Projection :=
  match key with
  | 3%nat | 7%nat | 11%nat => [Examples.seen 10; Examples.seen 30]
  | 15%nat => [Examples.seen 10; Examples.seen 20]
  | _ => []
  end.

(** What [ReduceError_RU] leaves of the spiky chunk: the tie point with
    uncertainty 30 is gone after one pass. *)
Definition settled_spiky : Reduce.Outcome (H := Reduce.table_engine) :=
  @Reduce.Build_Outcome Reduce.table_engine
    (@Reduce.Build_Chunk (Z -> Q)
       [Examples.tie_point 5; Examples.tie_point 6; Examples.tie_point 7]
       inject_Z 1)
    [Reduce.CallSelectPoints 10; Reduce.CallRemoveSelectedPoints;
     Reduce.CallOptimizeCameras Reduce.fit_basic]
    1.

(** An engine for which the value of a tie point is its track id over
    ten, whatever the criterion and the state of the chunk, and a chunk of
    three tie points with the values 0.1, 0.2 and 0.5. *)
Definition fixed_engine : Reduce.Engine :=
  {| Reduce.Solution := unit;
     Reduce.filter_value := fun _ _ tid => inject_Z tid / 10;
     Reduce.optimize := fun _ _ => tt |}.

Definition fixed_chunk : Reduce.Chunk unit :=
  {| Reduce.point_cloud :=
       [Examples.tie_point 1; Examples.tie_point 2; Examples.tie_point 5];
     Reduce.solution := tt;
     Reduce.tiepoint_accuracy := 1 |}.

(** A row of [BRDFArray] with intensity [y] at the pixel (0, 0). *)
Definition sample_row (y : Q) : Correction.Row :=
  {| Correction.row_u := 0; Correction.row_v := 0; Correction.row_y := y;
     Correction.row_x1 := 0; Correction.row_x2 := 0;
     Correction.row_coef0 := 0; Correction.row_coef1 := 0;
     Correction.row_intercept := y |}.

(** Two flights that number their photos alike: the first band has its
    photo in one directory, the others theirs in another, under one file
    name. *)
Definition twin_world : Correction.World :=
  {| Correction.files := ∅;
     Correction.bands := fun k =>
       {| Correction.photo_path :=
            match k with
            | 0%nat => "/data/flightA/IMG_0001.TIF"%string
            | _ => "/data/flightB/IMG_0001.TIF"%string
            end;
          Correction.photo := Examples.half_image;
          Correction.enabled := true |} |}.

(** The tables of the four cameras, collated, and arrays of angles for
    each of the four. *)
Definition collated_four
  : gmap nat (gmap nat Match.Coord) * gmap nat (gmap nat Match.Coord) :=
  Match.CollateMatchList Examples.four_matches.1 Examples.four_matches.2.

Definition four_angles : Correction.AngleTables :=
  let t : gmap nat Geometry.Array :=
    list_to_map (map (fun k => (k, Geometry.zeros)) [0; 1; 2; 3]%nat) in
  {| Correction.tbl_Sun_azimuth := t;
     Correction.tbl_View_zenith := t;
     Correction.tbl_View_azimuth := t |}.

End MoreExamples.

Import Match.

(** ** Theorems *)

Section CollateFacts.

Implicit Types (cm : CameraMatches) (pm : PointMatches).

(** C1. A tie point survives [CollateMatchList] exactly when it has at
    least three entries in [point_matches], keeping its observations
    unchanged; the rebuilt camera table has the same cameras and each
    camera keeps exactly the observations of surviving points. *)
Theorem CollateMatchList_retains cm pm :
  let '(cm', pm') := CollateMatchList cm pm in
  (∀ point value,
      pm' !! point = Some value ↔
      pm !! point = Some value ∧ (3 ≤ size value)%nat) ∧
  (∀ point, point ∈ dom pm' ↔
      ∃ value, pm !! point = Some value ∧ (3 ≤ size value)%nat) ∧
  dom cm' = dom cm ∧
  (∀ camera points', cm' !! camera = Some points' →
      ∃ points, cm !! camera = Some points ∧
        ∀ point coord,
          points' !! point = Some coord ↔
          points !! point = Some coord ∧ point ∈ dom pm').
Proof.
  unfold CollateMatchList; cbn zeta.
  assert (Hpm : ∀ point value,
    filter (λ kv : nat * gmap nat Coord, keep_point kv.2 = true) pm !! point
      = Some value ↔ pm !! point = Some value ∧ (3 ≤ size value)%nat).
  { intros point value. rewrite map_lookup_filter_Some. cbn.
    unfold keep_point. rewrite bool_decide_eq_true. done. }
  split; [exact Hpm|]. split; [|split].
  - intros point. rewrite elem_of_dom. split.
    + intros [value Hv]. exists value. by apply Hpm.
    + intros [value Hv]. exists value. by apply Hpm.
  - apply dom_fmap_L.
  - intros camera points'. rewrite lookup_fmap.
    destruct (cm !! camera) as [points|] eqn:Hc; [|done].
    cbn. intros [= <-]. exists points. split; [done|].
    intros point coord. by rewrite map_lookup_filter_Some.
Qed.

End CollateFacts.

(** ** The reduction loops *)

Import Reduce.

Section ReduceFacts.

Context `{Engine}.

Implicit Types (P : Policy) (s : Run) (c : Chunk Solution) (t v : Q).

Lemma Qgt_bool_true v t : Qgt_bool v t = true ↔ t < v.
Proof.
  unfold Qgt_bool. rewrite negb_true_iff, <- not_true_iff_false, Qle_bool_iff.
  split; [apply Qnot_le_lt | apply Qlt_not_le].
Qed.

Lemma Qgt_bool_false v t : Qgt_bool v t = false ↔ v <= t.
Proof.
  unfold Qgt_bool. rewrite negb_false_iff. apply Qle_bool_iff.
Qed.

Lemma qmax_cases a b : (qmax a b = a ∧ b <= a) ∨ (qmax a b = b ∧ a <= b).
Proof.
  unfold qmax. destruct (Qle_bool a b) eqn:E.
  - right. split; [done|]. by apply Qle_bool_iff.
  - left. split; [done|]. apply Qlt_le_weak, Qnot_le_lt.
    intros Hle. apply Qle_bool_iff in Hle. congruence.
Qed.

(** The running maximum is one of the values folded over. *)
Lemma fold_qmax_In (l : list Q) a : In (fold_left qmax l a) (a :: l).
Proof.
  revert a. induction l as [|x l IH]; intros a; cbn [fold_left].
  - by left.
  - destruct (IH (qmax a x)) as [Heq|Hin].
    + rewrite <- Heq.
      destruct (qmax_cases a x) as [[Hq _]|[Hq _]]; rewrite Hq.
      * by left.
      * right. by left.
    + right. by right.
Qed.

(** ... and it bounds every one of them. *)
Lemma fold_qmax_ub (l : list Q) a x : In x (a :: l) → x <= fold_left qmax l a.
Proof.
  revert a x. induction l as [|y l IH]; intros a x Hin; cbn [fold_left].
  - destruct Hin as [->|[]]. apply Qle_refl.
  - destruct (qmax_cases a y) as [[Hq Hle]|[Hq Hle]]; rewrite Hq;
      destruct Hin as [Hx|[Hx|Hin]]; subst.
    + apply IH. by left.
    + apply Qle_trans with a; [done|]. apply IH. by left.
    + apply IH. by right.
    + apply Qle_trans with y; [done|]. apply IH. by left.
    + apply IH. by left.
    + apply IH. by right.
Qed.

Lemma max_value_exceeds (values : list Q) t :
  values ≠ [] → t < max_value values → Exists (λ v, t < v) values.
Proof.
  destruct values as [|a l]; [done|]. intros _ Hlt.
  apply Exists_exists. exists (fold_left qmax l a). split; [|done].
  apply list_elem_of_In, fold_qmax_In.
Qed.

Lemma max_value_bounds (values : list Q) t :
  max_value values <= t → Forall (λ v, v <= t) values.
Proof.
  destruct values as [|a l]; [constructor|]. intros Hle.
  apply Forall_forall. intros x Hin.
  apply Qle_trans with (fold_left qmax l a); [|done].
  apply fold_qmax_ub. by apply list_elem_of_In.
Qed.

(** A filter that exceeds a non-negative stop value has a value. *)
Lemma loop_cond_nonempty P s :
  0 <= stop_value P → loop_cond P s = true → fltr s ≠ [].
Proof.
  unfold loop_cond. intros Hstop Hc Hnil. rewrite Hnil in Hc. cbn in Hc.
  apply Qgt_bool_true in Hc.
  exact (Qlt_irrefl 0 (Qle_lt_trans _ _ _ Hstop Hc)).
Qed.

Lemma selectPoints_cloud values t c :
  point_cloud (selectPoints values t c) = zip_with (mark t) (point_cloud c) values.
Proof. reflexivity. Qed.

Lemma select_track_ids (pts : list Point) (values : list Q) t :
  length values = length pts →
  map track_id (zip_with (mark t) pts values) = map track_id pts.
Proof.
  revert values. induction pts as [|p pts IH]; intros [|v values] Hlen;
    cbn in *; try done.
  f_equal. apply IH. lia.
Qed.

Lemma select_length (pts : list Point) (values : list Q) t :
  length values = length pts →
  length (zip_with (mark t) pts values) = length pts.
Proof.
  intros Hlen. rewrite length_zip_with. lia.
Qed.

(** Some value above the threshold: some point is selected. *)
Lemma select_some (pts : list Point) (values : list Q) t :
  length values = length pts → Exists (λ v, t < v) values →
  (0 < length (List.filter selected (zip_with (mark t) pts values)))%nat.
Proof.
  revert values. induction pts as [|p pts IH]; intros [|v values] Hlen Hex;
    cbn in *; try done.
  - inversion Hex.
  - destruct (Qgt_bool v t) eqn:E; cbn; [lia|].
    apply IH; [lia|]. inversion Hex as [? ? Hv|? ? Hex']; subst; [|done].
    apply Qgt_bool_true in Hv. congruence.
Qed.

(** No value above the threshold: no point is selected. *)
Lemma select_none (pts : list Point) (values : list Q) t :
  Forall (λ v, v <= t) values →
  List.filter selected (zip_with (mark t) pts values) = [].
Proof.
  revert values. induction pts as [|p pts IH]; intros [|v values] Hall;
    cbn; try done.
  inversion Hall as [|? ? Hv Hall']; subst.
  apply Qgt_bool_false in Hv. rewrite Hv. by apply IH.
Qed.

Lemma filter_split (pts : list Point) :
  (length (List.filter (λ p, negb (selected p)) pts)
   + length (List.filter selected pts) = length pts)%nat.
Proof.
  induction pts as [|p pts IH]; cbn; [done|].
  destruct (selected p); cbn; lia.
Qed.

Lemma filter_unselected (pts : list Point) :
  List.filter selected pts = [] →
  List.filter (λ p, negb (selected p)) pts = pts.
Proof.
  induction pts as [|p pts IH]; cbn; [done|].
  destruct (selected p); cbn; [done|]. intros Hn. f_equal. by apply IH.
Qed.

Lemma reset_track_ids c :
  map track_id (point_cloud (resetSelection c)) = map track_id (point_cloud c).
Proof.
  cbn. rewrite map_map. by apply map_ext.
Qed.

(** The filter stays aligned with the tie points: on entry and after
    every pass. *)
Lemma aligned_enter P t c : aligned (enter P t c).
Proof. unfold aligned, enter, Filter_init. cbn. by rewrite length_map. Qed.

Lemma aligned_loop_body P t s : aligned s → aligned (loop_body P t s).
Proof.
  unfold aligned, loop_body. intros Hal.
  destruct (too_many P _ && below_cap P _); cbn.
  - rewrite length_map, length_zip_with. lia.
  - unfold Filter_init. cbn. by rewrite length_map.
Qed.

(** The two branches of a pass. *)
Lemma loop_body_widen P t s :
  too_many P (selectPoints (fltr s) (threshold s) (chunk s)) = true →
  below_cap P (threshold s) = true →
  loop_body P t s =
    {| chunk := resetSelection (selectPoints (fltr s) (threshold s) (chunk s));
       fltr := fltr s;
       threshold := threshold s + step P;
       journal := journal s ++ [CallSelectPoints (threshold s); CallResetSelection] |}.
Proof. unfold loop_body. by intros -> ->. Qed.

Lemma loop_body_remove P t s :
  too_many P (selectPoints (fltr s) (threshold s) (chunk s)) = false ∨
  below_cap P (threshold s) = false →
  loop_body P t s =
    let c3 := optimizeCameras (flags P)
                (removeSelectedPoints (selectPoints (fltr s) (threshold s) (chunk s))) in
    {| chunk := c3;
       fltr := Filter_init (criterion P) c3;
       threshold := t;
       journal := journal s ++
         [CallSelectPoints (threshold s); CallRemoveSelectedPoints;
          CallOptimizeCameras (flags P)] |}.
Proof.
  unfold loop_body. intros [-> | ->]; [done|]. by rewrite andb_false_r.
Qed.

Lemma aligned_after_passes P t c (n : nat) : aligned (after_passes P t c n).
Proof.
  unfold after_passes. induction n as [|n IH]; cbn [Nat.iter].
  - apply aligned_enter.
  - by apply aligned_loop_body.
Qed.

(** What the bounded loop returns is the run after the counted number of
    passes; the condition held before each of them and fails after the
    last. *)
Lemma while_passes (fuel : nat) (cond : Run → bool) (body : Run → Run) s s'
    (n : nat) :
  while fuel cond body s = Some (s', n) →
  s' = Nat.iter n body s ∧ cond s' = false ∧
  ∀ k, (k < n)%nat → cond (Nat.iter k body s) = true.
Proof.
  revert s s' n. induction fuel as [|fuel IH]; intros s s' n; cbn [while].
  - destruct (cond s) eqn:E; [done|]. intros [= <- <-].
    split; [done|]. split; [done|]. intros k Hk. lia.
  - destruct (cond s) eqn:E.
    + destruct (while fuel cond body (body s)) as [[s1 n1]|] eqn:Hw; [|done].
      intros [= <- <-]. destruct (IH _ _ _ Hw) as (Hs & Hc & Hk).
      split; [by rewrite Nat.iter_succ_r|]. split; [done|].
      intros [|k] Hlt; [done|]. rewrite Nat.iter_succ_r. apply Hk. lia.
    + intros [= <- <-]. split; [done|]. split; [done|]. intros k Hk. lia.
Qed.

Lemma reduce_loop_passes P (fuel : nat) t c s' (n : nat) :
  reduce_loop P fuel t c = Some (s', n) →
  s' = after_passes P t c n ∧ loop_cond P s' = false ∧
  ∀ k, (k < n)%nat → loop_cond P (after_passes P t c k) = true.
Proof. apply while_passes. Qed.

Lemma while_done (fuel : nat) (cond : Run → bool) (body : Run → Run) s :
  cond s = false → while fuel cond body s = Some (s, O).
Proof. intros Hc. destruct fuel; cbn; by rewrite Hc. Qed.

Lemma loop_cond_converged P t c :
  max_value (Filter_init (criterion P) c) <= stop_value P →
  loop_cond P (enter P t c) = false.
Proof. intros Hle. unfold loop_cond. cbn. by apply Qgt_bool_false. Qed.

Lemma step_progress P t : 0 < step P → t < t + step P.
Proof.
  intros Hstep. assert (Hlt : t + 0 < t + step P) by by apply Qplus_lt_r.
  by rewrite Qplus_0_r in Hlt.
Qed.

(** A pass entered with the threshold below the largest value makes
    progress; one entered with the threshold at or above it removes
    nothing and resets the threshold. *)
Lemma loop_body_progress P (init_threshold : Q) s :
  0 <= stop_value P → 0 < step P → aligned s → loop_cond P s = true →
  let s' := loop_body P init_threshold s in
  (threshold s < max_value (fltr s) →
     (length (point_cloud (chunk s')) < length (point_cloud (chunk s)))%nat
     ∨ threshold s < threshold s') ∧
  (max_value (fltr s) <= threshold s →
     map track_id (point_cloud (chunk s')) = map track_id (point_cloud (chunk s))
     ∧ threshold s' = init_threshold).
Proof.
  intros Hstop Hstep Hal Hc. cbn zeta.
  pose proof (loop_cond_nonempty P s Hstop Hc) as Hne.
  unfold aligned in Hal. split.
  - intros Hlt.
    destruct (too_many P (selectPoints (fltr s) (threshold s) (chunk s))
              && below_cap P (threshold s)) eqn:E.
    + apply andb_true_iff in E as [E1 E2].
      rewrite loop_body_widen by done. right. cbn. by apply step_progress.
    + apply andb_false_iff in E. rewrite loop_body_remove by done.
      left. cbn.
      pose proof (select_some (point_cloud (chunk s)) (fltr s) (threshold s) Hal
                    (max_value_exceeds _ _ Hne Hlt)) as Hsome.
      pose proof (filter_split
                    (zip_with (mark (threshold s)) (point_cloud (chunk s)) (fltr s)))
        as Hsplit.
      rewrite select_length in Hsplit by done. lia.
  - intros Hle. apply max_value_bounds in Hle.
    pose proof (select_none (point_cloud (chunk s)) (fltr s) (threshold s) Hle)
      as Hnone.
    assert (Hfew : too_many P (selectPoints (fltr s) (threshold s) (chunk s)) = false).
    { unfold too_many, nselected. rewrite selectPoints_cloud, Hnone.
      rewrite select_length by done. cbn [length].
      apply Nat.leb_gt. destruct (fltr s); [done|]. cbn in Hal. lia. }
    rewrite loop_body_remove by auto. cbn. split; [|done].
    rewrite filter_unselected by done. by apply select_track_ids.
Qed.

(** C3 (amended). In the RU and the PA loop, a pass entered with the
    threshold below the largest metric value either removes at least one
    tie point or raises the threshold; a pass entered with the threshold
    at or above the largest metric value removes no tie point and puts
    the threshold back to its initial value. *)
Theorem reduce_iteration_progress P (init_threshold : Q) c (n : nat) :
  P = RU ∨ P = PA →
  let s := after_passes P init_threshold c n in
  loop_cond P s = true →
  let s' := loop_body P init_threshold s in
  (threshold s < max_value (fltr s) →
     (length (point_cloud (chunk s')) < length (point_cloud (chunk s)))%nat
     ∨ threshold s < threshold s') ∧
  (max_value (fltr s) <= threshold s →
     map track_id (point_cloud (chunk s')) = map track_id (point_cloud (chunk s))
     ∧ threshold s' = init_threshold).
Proof.
  intros [-> | ->]; cbn zeta; intros Hc;
    (apply loop_body_progress; [done|done|apply aligned_after_passes|done]).
Qed.

(** C4 (amended). A pass of the RU loop widens the threshold instead of
    removing points exactly when the selected points are at least half of
    all points and the threshold is at most 50; it then adds 1 to the
    threshold and keeps every tie point. Once the threshold exceeds 50 the
    selected points are removed whatever their share. *)
Theorem RU_widening_cap (init_threshold : Q) c (n : nat) :
  let s := after_passes RU init_threshold c n in
  let c1 := selectPoints (fltr s) (threshold s) (chunk s) in
  let s' := loop_body RU init_threshold s in
  (journal s' = journal s ++ [CallSelectPoints (threshold s); CallResetSelection]
     ↔ too_many RU c1 = true ∧ threshold s <= 50) ∧
  (too_many RU c1 = true → threshold s <= 50 →
     threshold s' = threshold s + 1 ∧
     map track_id (point_cloud (chunk s')) = map track_id (point_cloud (chunk s)) ∧
     solution (chunk s') = solution (chunk s)) ∧
  (50 < threshold s →
     point_cloud (chunk s') =
       List.filter (λ p, negb (selected p)) (point_cloud c1) ∧
     threshold s' = init_threshold ∧
     journal s' = journal s ++
       [CallSelectPoints (threshold s); CallRemoveSelectedPoints;
        CallOptimizeCameras fit_basic]).
Proof.
  cbn zeta. pose proof (aligned_after_passes RU init_threshold c n) as Hal.
  set (s := after_passes RU init_threshold c n) in *.
  split; [|split].
  - split.
    + intros Hj.
      destruct (too_many RU (selectPoints (fltr s) (threshold s) (chunk s))) eqn:E1;
        destruct (Qle_bool (threshold s) 50) eqn:E2.
      * split; [done|]. by apply Qle_bool_iff.
      * rewrite loop_body_remove in Hj by (right; exact E2).
        cbn in Hj. apply app_inv_head in Hj. discriminate.
      * rewrite loop_body_remove in Hj by (by left).
        cbn in Hj. apply app_inv_head in Hj. discriminate.
      * rewrite loop_body_remove in Hj by (by left).
        cbn in Hj. apply app_inv_head in Hj. discriminate.
    + intros [E1 E2]. apply Qle_bool_iff in E2.
      by rewrite loop_body_widen.
  - intros E1 E2. apply Qle_bool_iff in E2.
    rewrite loop_body_widen by done. cbn [threshold chunk step RU].
    split; [done|]. split; [|done].
    rewrite reset_track_ids. by apply select_track_ids.
  - intros Hlt.
    assert (E2 : below_cap RU (threshold s) = false).
    { cbn. apply not_true_iff_false. intros Hle. apply Qle_bool_iff in Hle.
      exact (Qlt_irrefl 50 (Qlt_le_trans _ _ _ Hlt Hle)). }
    rewrite loop_body_remove by (by right). done.
Qed.

(** C5. A phase started on a chunk whose largest metric value is at or
    below the phase's stop value makes no pass through its loop and removes
    no tie point, whatever the bound on passes and the initial threshold. *)
Theorem converged_phase_removes_nothing (fuel : nat) c (init_threshold : Q) :
  (max_value (Filter_init ReconstructionUncertainty c) <= 10 →
     ReduceError_RU fuel c init_threshold =
       Some {| final := c; calls := []; iterations := 0 |}) ∧
  (max_value (Filter_init ProjectionAccuracy c) <= 2 →
     ∃ o, ReduceError_PA fuel c init_threshold = Some o ∧
          iterations o = 0%nat ∧
          point_cloud (final o) = point_cloud c ∧
          ¬ In CallRemoveSelectedPoints (calls o)) ∧
  (max_value (Filter_init ReprojectionError c) <= 3 # 10 →
     ReduceError_RE fuel c init_threshold =
       Some {| final := c; calls := []; iterations := 0 |}).
Proof.
  split; [|split]; intros Hle.
  - unfold ReduceError_RU, reduce_loop.
    rewrite while_done by (by apply loop_cond_converged). done.
  - unfold ReduceError_PA, reduce_loop.
    rewrite while_done by (by apply loop_cond_converged).
    eexists. split; [done|]. cbn. split; [done|]. split; [done|].
    intros [?|[?|[]]]; discriminate.
  - unfold ReduceError_RE, reduce_loop.
    rewrite while_done by (by apply loop_cond_converged). done.
Qed.

(** C10. Whenever [ReduceError_PA] returns, it has set the tie-point
    accuracy to 1/10 and ended with one camera optimisation in which every
    intrinsic parameter is fitted; on a converged chunk it makes exactly
    these two changes after zero passes, while [ReduceError_RU] and
    [ReduceError_RE] return a converged chunk as they found it, with no
    mutating call made. *)
Theorem PA_always_tightens :
  (∀ (fuel : nat) c (init_threshold : Q) o,
     ReduceError_PA fuel c init_threshold = Some o →
     tiepoint_accuracy (final o) = 1 # 10 ∧
     ∃ c' before,
       final o = optimizeCameras fit_all (set_tiepoint_accuracy (1 # 10) c') ∧
       calls o = before ++
         [SetTiepointAccuracy (1 # 10); CallOptimizeCameras fit_all]) ∧
  (∀ (fuel : nat) c (init_threshold : Q),
     max_value (Filter_init ProjectionAccuracy c) <= 2 →
     ReduceError_PA fuel c init_threshold =
       Some {| final := optimizeCameras fit_all (set_tiepoint_accuracy (1 # 10) c);
               calls := [SetTiepointAccuracy (1 # 10); CallOptimizeCameras fit_all];
               iterations := 0 |}) ∧
  (∀ (fuel : nat) c (init_threshold : Q),
     max_value (Filter_init ReconstructionUncertainty c) <= 10 →
     ReduceError_RU fuel c init_threshold =
       Some {| final := c; calls := []; iterations := 0 |}) ∧
  (∀ (fuel : nat) c (init_threshold : Q),
     max_value (Filter_init ReprojectionError c) <= 3 # 10 →
     ReduceError_RE fuel c init_threshold =
       Some {| final := c; calls := []; iterations := 0 |}) ∧
  [fit_f fit_all; fit_cx fit_all; fit_cy fit_all; fit_b1 fit_all; fit_b2 fit_all;
   fit_k1 fit_all; fit_k2 fit_all; fit_k3 fit_all; fit_k4 fit_all;
   fit_p1 fit_all; fit_p2 fit_all; fit_p3 fit_all; fit_p4 fit_all]
  = repeat true 13.
Proof.
  split; [|split; [|split; [|split]]].
  - intros fuel c init_threshold o. unfold ReduceError_PA.
    destruct (reduce_loop PA fuel init_threshold c) as [[s n]|]; [|done].
    intros [= <-]. cbn. split; [done|]. by exists (chunk s), (journal s).
  - intros fuel c init_threshold Hle. unfold ReduceError_PA, reduce_loop.
    rewrite while_done by (by apply loop_cond_converged). done.
  - intros fuel c init_threshold Hle. unfold ReduceError_RU, reduce_loop.
    rewrite while_done by (by apply loop_cond_converged). done.
  - intros fuel c init_threshold Hle. unfold ReduceError_RE, reduce_loop.
    rewrite while_done by (by apply loop_cond_converged). done.
  - reflexivity.
Qed.

End ReduceFacts.

(** *** The loops on concrete tie-point sets *)

Section ReduceExamples.

Import Examples.

#[local] Existing Instance table_engine.

(** One removing pass settles the spiky chunk. *)
Example RU_spiky :
  ReduceError_RU 5 spiky_chunk RU_init =
    Some {| final := {| point_cloud := [tie_point 5; tie_point 6; tie_point 7];
                        solution := inject_Z; tiepoint_accuracy := 1 |};
            calls := [CallSelectPoints 10; CallRemoveSelectedPoints;
                      CallOptimizeCameras fit_basic];
            iterations := 1 |}.
Proof. reflexivity. Qed.

(** C3, as stated, fails: with uncertainties 20.5, 20.5 and 1 the RU loop
    widens its threshold from 10 to 21 in eleven passes; the twelfth pass
    selects nothing, removes nothing and puts the threshold back to 10. *)
Lemma RU_pass_can_stall :
  let s := RU_after 11 stall_chunk in
  let s' := loop_body RU RU_init s in
  (∀ k, (k <= 11)%nat → loop_cond RU (RU_after k stall_chunk) = true) ∧
  threshold s = 21 ∧
  nselected (selectPoints (fltr s) (threshold s) (chunk s)) = 0%nat ∧
  ¬ ((length (point_cloud (chunk s')) < length (point_cloud (chunk s)))%nat
     ∨ threshold s < threshold s').
Proof.
  split; [|split; [|split]].
  - intros k Hk.
    do 12 (destruct k as [|k]; [vm_compute; reflexivity|]). lia.
  - vm_compute; reflexivity.
  - vm_compute; reflexivity.
  - intros [Hlen | Hthr].
    + vm_compute in Hlen. lia.
    + vm_compute in Hthr. discriminate.
Qed.

Lemma reduce_iteration_progress_witness :
  (let s := RU_after 0 stall_chunk in
   let s' := loop_body RU RU_init s in
   (length (point_cloud (chunk s')) < length (point_cloud (chunk s)))%nat
   ∨ threshold s < threshold s') ∧
  (let s := RU_after 11 stall_chunk in
   let s' := loop_body RU RU_init s in
   map track_id (point_cloud (chunk s')) = map track_id (point_cloud (chunk s))
   ∧ threshold s' = RU_init).
Proof.
  split.
  - apply (reduce_iteration_progress (H := table_engine) RU RU_init stall_chunk 0);
      [by left | vm_compute; reflexivity | vm_compute; reflexivity].
  - apply (reduce_iteration_progress (H := table_engine) RU RU_init stall_chunk 11);
      [by left | vm_compute; reflexivity | vm_compute; discriminate].
Defined.

(** C4, as stated, fails: with both uncertainties at 100 the RU loop
    reaches the threshold 50 after forty passes, and the next pass still
    widens it to 51 and removes neither of the two selected points. *)
Lemma RU_widens_at_50 :
  let s := RU_after 40 steep_chunk in
  let s' := loop_body RU RU_init s in
  (∀ k, (k <= 40)%nat → loop_cond RU (RU_after k steep_chunk) = true) ∧
  threshold s = 50 ∧
  nselected (selectPoints (fltr s) (threshold s) (chunk s)) = 2%nat ∧
  threshold s' = 51 ∧
  point_cloud (chunk s') = point_cloud steep_chunk ∧
  ¬ In CallRemoveSelectedPoints (journal s').
Proof.
  split; [|split; [|split; [|split; [|split]]]].
  - intros k Hk.
    do 41 (destruct k as [|k]; [vm_compute; reflexivity|]). lia.
  - vm_compute; reflexivity.
  - vm_compute; reflexivity.
  - vm_compute; reflexivity.
  - vm_compute; reflexivity.
  - vm_compute. intros Hin.
    repeat (destruct Hin as [Hin|Hin]; [discriminate|]). exact Hin.
Qed.

Lemma RU_widening_cap_witness :
  (let s := RU_after 40 steep_chunk in
   let s' := loop_body RU RU_init s in
   threshold s' = threshold s + 1 ∧
   map track_id (point_cloud (chunk s')) = map track_id (point_cloud (chunk s)) ∧
   solution (chunk s') = solution (chunk s)) ∧
  (let s := RU_after 41 steep_chunk in
   let s' := loop_body RU RU_init s in
   point_cloud (chunk s') =
     List.filter (λ p, negb (selected p))
       (point_cloud (selectPoints (fltr s) (threshold s) (chunk s))) ∧
   threshold s' = RU_init ∧
   journal s' = journal s ++
     [CallSelectPoints (threshold s); CallRemoveSelectedPoints;
      CallOptimizeCameras fit_basic]).
Proof.
  split.
  - apply (RU_widening_cap (H := table_engine) RU_init steep_chunk 40);
      [vm_compute; reflexivity | vm_compute; discriminate].
  - apply (RU_widening_cap (H := table_engine) RU_init steep_chunk 41).
    vm_compute; reflexivity.
Defined.

Lemma converged_phase_removes_nothing_witness :
  ReduceError_RU 0 calm_chunk RU_init =
    Some {| final := calm_chunk; calls := []; iterations := 0 |} ∧
  (∃ o, ReduceError_PA 0 calm_chunk PA_init = Some o ∧
        iterations o = 0%nat ∧
        point_cloud (final o) = point_cloud calm_chunk ∧
        ¬ In CallRemoveSelectedPoints (calls o)) ∧
  ReduceError_RE 0 calm_chunk RE_init =
    Some {| final := calm_chunk; calls := []; iterations := 0 |}.
Proof.
  split; [|split].
  - apply (converged_phase_removes_nothing (H := table_engine) 0 calm_chunk RU_init).
    vm_compute; discriminate.
  - apply (converged_phase_removes_nothing (H := table_engine) 0 calm_chunk PA_init).
    vm_compute; discriminate.
  - apply (converged_phase_removes_nothing (H := table_engine) 0 calm_chunk RE_init).
    vm_compute; discriminate.
Defined.

Lemma PA_always_tightens_witness :
  (tiepoint_accuracy
     (optimizeCameras fit_all
        (set_tiepoint_accuracy (1 # 10)
           {| point_cloud := [tie_point 1; tie_point 2; tie_point 3];
              solution := solution skew_chunk;
              tiepoint_accuracy := 1 |})) = 1 # 10) ∧
  ReduceError_PA 0 calm_chunk PA_init =
    Some {| final := optimizeCameras fit_all
                       (set_tiepoint_accuracy (1 # 10) calm_chunk);
            calls := [SetTiepointAccuracy (1 # 10); CallOptimizeCameras fit_all];
            iterations := 0 |} ∧
  ReduceError_RU 0 calm_chunk RU_init =
    Some {| final := calm_chunk; calls := []; iterations := 0 |} ∧
  ReduceError_RE 0 calm_chunk RE_init =
    Some {| final := calm_chunk; calls := []; iterations := 0 |}.
Proof.
  destruct (PA_always_tightens (H := table_engine)) as (Hany & Hpa & Hru & Hre & _).
  split; [|split; [|split]].
  - apply (Hany 3%nat skew_chunk PA_init
             {| final := optimizeCameras (H := table_engine) fit_all
                  (set_tiepoint_accuracy (H := table_engine) (1 # 10)
                     {| point_cloud := [tie_point 1; tie_point 2; tie_point 3];
                        solution := solution skew_chunk;
                        tiepoint_accuracy := 1 |});
                calls := [CallSelectPoints 2; CallRemoveSelectedPoints;
                          CallOptimizeCameras fit_basic;
                          SetTiepointAccuracy (1 # 10);
                          CallOptimizeCameras fit_all];
                iterations := 1 |}).
    reflexivity.
  - apply Hpa. vm_compute; discriminate.
  - apply Hru. vm_compute; discriminate.
  - apply Hre. vm_compute; discriminate.
Defined.

End ReduceExamples.

(** ** Solar geometry *)

Import Geometry.

Section GeometryFacts.

Context `{Scene}.

Lemma Qge_bool_true x y : Qge_bool x y = true ↔ y <= x.
Proof. unfold Qge_bool. apply Qle_bool_iff. Qed.

Lemma Qge_bool_false x y : Qge_bool x y = false ↔ x < y.
Proof.
  unfold Qge_bool. rewrite <- not_true_iff_false, Qle_bool_iff.
  split; [apply Qnot_le_lt | apply Qlt_not_le].
Qed.

Lemma Qabs_below x b : Qabs x < b ↔ - b < x ∧ x < b.
Proof. apply Qabs_Qlt_condition. Qed.

Lemma Qabs_above x b : b <= Qabs x ↔ x <= - b ∨ b <= x.
Proof.
  split.
  - apply Qabs_case; intros Hx Hb; [by right|]. left. lra.
  - intros [Hx|Hx].
    + apply Qle_trans with (- x); [lra|]. rewrite <- Qabs_opp. apply Qle_Qabs.
    + apply Qle_trans with x; [done|]. apply Qle_Qabs.
Qed.

(** The azimuth returned for a south-referenced azimuth [south]. *)
Lemma GetSunAngle_azimuth (lonlat : LonLat) (time : Time) :
  let south := get_azimuth (snd lonlat) (fst lonlat) time in
  snd (GetSunAngle lonlat time) =
    if Qge_bool (Qabs (180 - south)) 360 then 180 - south - 360 else 180 - south.
Proof. reflexivity. Qed.

(** It lies strictly within a turn either side of north exactly when
    pysolar's azimuth is less than a turn and a half from south. *)
Lemma GetSunAngle_azimuth_range (lonlat : LonLat) (time : Time) :
  let south := get_azimuth (snd lonlat) (fst lonlat) time in
  (- (360) < snd (GetSunAngle lonlat time) ∧ snd (GetSunAngle lonlat time) < 360)
  ↔ (- (540) < south ∧ south < 540).
Proof.
  cbn zeta. rewrite GetSunAngle_azimuth. cbn zeta.
  set (south := get_azimuth _ _ _).
  destruct (Qge_bool (Qabs (180 - south)) 360) eqn:E.
  - apply Qge_bool_true, Qabs_above in E. split; intros [H1 H2].
    + destruct E; split; lra.
    + destruct E; split; lra.
  - apply Qge_bool_false, Qabs_below in E. split; intros [H1 H2]; split; lra.
Qed.

(** C6. [GetSunAngle] returns the zenith 90 - altitude and the azimuth
    180 - south-referenced azimuth, less 360 when the magnitude of that
    difference is 360 or more; for an azimuth that pysolar reports within
    a turn and a half of south, the result lies strictly between -360
    and 360. *)
Theorem GetSunAngle_spec (lonlat : LonLat) (time : Time) :
  let altitude := get_altitude (snd lonlat) (fst lonlat) time in
  let south := get_azimuth (snd lonlat) (fst lonlat) time in
  let '(zenith, azimuth) := GetSunAngle lonlat time in
  zenith = 90 - altitude ∧
  (Qabs (180 - south) < 360 → azimuth = 180 - south) ∧
  (360 <= Qabs (180 - south) → azimuth = 180 - south - 360) ∧
  (- (540) < south ∧ south < 540 → - (360) < azimuth ∧ azimuth < 360).
Proof.
  cbn zeta.
  pose proof (GetSunAngle_azimuth lonlat time) as Haz.
  pose proof (GetSunAngle_azimuth_range lonlat time) as Hrange.
  cbn zeta in Haz, Hrange.
  destruct (GetSunAngle lonlat time) as [zenith azimuth] eqn:E.
  cbn [snd] in Haz, Hrange.
  split; [|split; [|split]].
  - unfold GetSunAngle in E. by injection E as <- _.
  - intros Hlt. apply Qge_bool_false in Hlt. by rewrite Hlt in Haz.
  - intros Hge. apply Qge_bool_true in Hge. by rewrite Hge in Haz.
  - apply Hrange.
Qed.

Lemma pixels_spec (width height u v : nat) :
  In (u, v) (pixels width height) ↔ (u < width)%nat ∧ (v < height)%nat.
Proof.
  unfold pixels. rewrite in_flat_map. split.
  - intros (u' & Hu & Hin). apply in_map_iff in Hin as (v' & [= -> ->] & Hv).
    apply in_seq in Hu, Hv. lia.
  - intros [Hu Hv]. exists u. split; [apply in_seq; lia|].
    apply in_map_iff. exists v. split; [done|]. apply in_seq. lia.
Qed.

Lemma aset_same (a : Array) v u x : aset a v u x v u = x.
Proof. unfold aset. by rewrite !Nat.eqb_refl. Qed.

(** With [Pixelwise] off, the pixel loop keeps the initial pair and writes
    it into every cell it visits. *)
Lemma angle_loop_uniform (UTC : bool) (camera : Band) (l : list (nat * nat))
    (st : Angles) (u v : nat) :
  In (u, v) l ∨
    (Sun_zenith st v u = Pixel_Sun_zenith st ∧
     Sun_azimuth st v u = Pixel_Sun_azimuth st) →
  let st' := fold_left (angle_step false UTC camera) l st in
  Sun_zenith st' v u = Pixel_Sun_zenith st ∧
  Sun_azimuth st' v u = Pixel_Sun_azimuth st.
Proof.
  revert st. induction l as [|[u0 v0] l IH]; intros st Hcell; cbn zeta.
  - destruct Hcell as [[]|Hcell]. exact Hcell.
  - cbn [fold_left].
    set (st1 := angle_step false UTC camera st (u0, v0)).
    assert (Hpair : Pixel_Sun_zenith st1 = Pixel_Sun_zenith st ∧
                    Pixel_Sun_azimuth st1 = Pixel_Sun_azimuth st).
    { unfold st1, angle_step. by destruct (GetViewAngle u0 v0 camera). }
    destruct Hpair as [Hz Ha]. rewrite <- Hz, <- Ha. apply IH.
    destruct Hcell as [[Heq|Hin]|[Hcz Hca]].
    + injection Heq as -> ->. right. unfold st1, angle_step.
      destruct (GetViewAngle u v camera). cbn. by rewrite !aset_same.
    + by left.
    + right. unfold st1, angle_step.
      destruct (GetViewAngle u0 v0 camera). cbn. unfold aset.
      by destruct ((v =? v0)%nat && (u =? u0)%nat).
Qed.

(** With [Pixelwise] off, every pixel of the sun-angle arrays holds the
    one pair computed at [(width/2+cx, width/2+cy)]. *)
Lemma CreateSunViewGeometryArrays_uniform (UTC : bool) (camera : Band) (u v : nat) :
  (u < sensor_width camera)%nat → (v < sensor_height camera)%nat →
  let A := CreateSunViewGeometryArrays false UTC camera in
  let sun :=
    GetSunAngle
      (GetPixelLocation (fst (initial_pixel camera)) (snd (initial_pixel camera)) camera)
      (GetDateTime UTC camera) in
  Sun_zenith A v u = fst sun ∧ Sun_azimuth A v u = snd sun.
Proof.
  intros Hu Hv. cbn zeta. unfold CreateSunViewGeometryArrays.
  destruct (GetSunAngle _ _) as [sz sa]. cbn [fst snd].
  apply (angle_loop_uniform UTC camera (pixels (sensor_width camera) (sensor_height camera))
           {| Pixel_Sun_zenith := sz; Pixel_Sun_azimuth := sa;
              Sun_zenith := zeros; Sun_azimuth := zeros;
              View_zenith := zeros; View_azimuth := zeros |} u v).
  left. by apply pixels_spec.
Qed.

End GeometryFacts.

Section GeometryExamples.

Import Examples.

#[local] Existing Instance toy_solar.
#[local] Existing Instance toy_scene.

Lemma GetSunAngle_spec_witness :
  let '(zenith, azimuth) := GetSunAngle (H := toy_solar) (-(180), 60) tt in
  zenith = 90 - 60 ∧ azimuth = 180 - -(180) - 360 ∧
  - (360) < azimuth ∧ azimuth < 360.
Proof.
  pose proof (GetSunAngle_spec (H := toy_solar) (-(180), 60) tt) as Hspec.
  cbn zeta in Hspec.
  destruct (GetSunAngle (H := toy_solar) (-(180), 60) tt) as [zenith azimuth].
  destruct Hspec as (Hz & _ & Hwrap & Hrange).
  split; [exact Hz|]. split.
  - apply Hwrap. vm_compute. discriminate.
  - apply Hrange. split; vm_compute; reflexivity.
Defined.

(** C8: the sun angle is not taken at the camera centre. On a sensor four
    pixels wide and three high with the principal point at the centre, the
    script evaluates the sun at pixel (2, 2), one half of the width down,
    while the centre is (2, 3/2); every pixel receives the zenith of the
    former, 88 degrees, where the centre has 88.5. *)
Lemma sun_angle_off_centre :
  let A := CreateSunViewGeometryArrays (H0 := toy_scene) false true wide_band in
  initial_pixel wide_band = (4 / 2 + 0, 4 / 2 + 0) ∧
  centre_pixel wide_band = (4 / 2 + 0, 3 / 2 + 0) ∧
  (∀ u v, (u < 4)%nat → (v < 3)%nat → Sun_zenith A v u == 88) ∧
  fst (GetSunAngle (H := toy_solar)
         (GetPixelLocation (fst (centre_pixel wide_band))
            (snd (centre_pixel wide_band)) wide_band) tt) == 177 # 2.
Proof.
  cbn zeta. split; [reflexivity|]. split; [reflexivity|]. split.
  - intros u v Hu Hv.
    destruct (CreateSunViewGeometryArrays_uniform (H0 := toy_scene)
                true wide_band u v Hu Hv) as [Hz _].
    cbn zeta in Hz. rewrite Hz. vm_compute. reflexivity.
  - vm_compute. reflexivity.
Qed.

End GeometryExamples.

(** ** BRDF correction *)

Import Correction.

Section CorrectionFacts.

Context `{Learn}.

Lemma bind_Ok {A B} (m : Res A) (f : A → Res B) (b : B) :
  m ≫= f = Ok b → ∃ a, m = Ok a ∧ f a = Ok b.
Proof. destruct m as [a|e]; cbn; [eauto|discriminate]. Qed.



Lemma clip_range lo hi x : lo <= hi → lo <= clip lo hi x ∧ clip lo hi x <= hi.
Proof.
  intros Hlh. unfold clip.
  destruct (Qle_bool lo x) eqn:E1.
  - apply Qle_bool_iff in E1. destruct (Qle_bool x hi) eqn:E2.
    + apply Qle_bool_iff in E2. done.
    + split; [done|apply Qle_refl].
  - destruct (Qle_bool lo hi) eqn:E2.
    + split; [apply Qle_refl|done].
    + split; [done|apply Qle_refl].
Qed.

Lemma dtype_range (t : NpType) : dtype_min t <= 0 ∧ 0 <= dtype_max t.
Proof. destruct t; split; vm_compute; discriminate. Qed.

Lemma dtype_ordered (t : NpType) : dtype_min t <= dtype_max t.
Proof.
  destruct (dtype_range t). by apply Qle_trans with 0.
Qed.

(** Filling a blank image with values of a range that holds 0 gives an
    image within that range. *)
Lemma emit_pixel_range (width height : nat) (t : DataType) (a : Array) lo hi :
  lo <= 0 → 0 <= hi → (∀ v u, lo <= a v u ∧ a v u <= hi) →
  ∀ u v, lo <= pixel (emit width height t a) u v ∧ pixel (emit width height t a) u v <= hi.
Proof.
  intros Hlo Hhi Ha. unfold emit. cbn [pixel].
  assert (Hfold : ∀ (l : list (nat * nat)) (px : Array),
    (∀ u v, lo <= px u v ∧ px u v <= hi) →
    ∀ u v,
      lo <= fold_left (λ px uv, aset px uv.1 uv.2 (a uv.2 uv.1)) l px u v ∧
      fold_left (λ px uv, aset px uv.1 uv.2 (a uv.2 uv.1)) l px u v <= hi).
  { induction l as [|[u0 v0] l IH]; intros px Hpx; cbn [fold_left]; [done|].
    apply IH. intros u v. unfold aset. cbn.
    destruct ((u =? u0)%nat && (v =? v0)%nat); [apply Ha|apply Hpx]. }
  apply Hfold. intros u v. unfold zeros. done.
Qed.

(** C7. Every pixel of the image [BRDFImage] returns lies between the
    least and the greatest value of the source image's data type (between
    0 and 255 for an 8-bit image); the image has the sensor's width and
    height, which are those of the source image when the photo fills the
    sensor, and the source's data type. *)
Theorem BRDFImage_clipped (photos : nat → PSImage) (camera : Band)
    (camera_matches : CameraMatches) (point_matches : PointMatches)
    (T : AngleTables) (image : PSImage) :
  BRDFImage photos camera camera_matches point_matches T = Ok image →
  let source := photos (band_id camera) in
  im_width image = sensor_width camera ∧
  im_height image = sensor_height camera ∧
  data_type image = data_type source ∧
  (im_width source = sensor_width camera → im_height source = sensor_height camera →
     im_width image = im_width source ∧ im_height image = im_height source) ∧
  (∃ Imtype, datatype (data_type source) = Ok Imtype ∧
     ∀ u v, dtype_min Imtype <= pixel image u v ∧ pixel image u v <= dtype_max Imtype) ∧
  (data_type source = U8 → ∀ u v, 0 <= pixel image u v ∧ pixel image u v <= 255).
Proof.
  intros Hrun. cbn zeta. unfold BRDFImage in Hrun.
  apply bind_Ok in Hrun as (S & HS & Hrun).
  apply bind_Ok in Hrun as (d0 & _ & Hrun).
  apply bind_Ok in Hrun as (d1 & _ & Hrun).
  apply bind_Ok in Hrun as (clf0 & _ & Hrun).
  apply bind_Ok in Hrun as (clf1 & _ & Hrun).
  unfold synthesize in Hrun.
  apply bind_Ok in Hrun as (sa & _ & Hrun).
  apply bind_Ok in Hrun as (vz & _ & Hrun).
  apply bind_Ok in Hrun as (va & _ & Hrun).
  injection Hrun as <-.
  unfold sample_tie_points in HS.
  apply bind_Ok in HS as (Imtype & Hty & HS).
  apply bind_Ok in HS as (matches & _ & HS).
  apply bind_Ok in HS as (rows & _ & HS).
  injection HS as <-. cbn [s_Imtype s_gmm s_Image_array].
  split; [done|]. split; [done|]. split; [done|]. split; [|split].
  - intros Hw Hh. cbn. by rewrite Hw, Hh.
  - exists Imtype. split; [done|].
    apply emit_pixel_range; [apply dtype_range|apply dtype_range|].
    intros v u. apply clip_range, dtype_ordered.
  - intros HU8. rewrite HU8 in Hty. injection Hty as <-.
    apply (emit_pixel_range _ _ _ _ (dtype_min uint8) (dtype_max uint8));
      [apply dtype_range|apply dtype_range|].
    intros v u. apply clip_range, dtype_ordered.
Qed.














(** The branches of the loop body for a band without camera group. *)
Lemma correct_band_ungrouped (cwd outpath : string) (tables : Tables) (w : World)
    (band : Band) :
  group_label band = None →
  let k := band_id band in
  let source := photo_path (bands w k) in
  let destination := new_path outpath source in
  (filename_formatted cwd source = new_filename_formatted cwd outpath source →
     correct_band cwd outpath tables w band = Ok (w, SkippedSamePath)) ∧
  (filename_formatted cwd source ≠ new_filename_formatted cwd outpath source →
     path_exists w destination = true →
     correct_band cwd outpath tables w band =
       Ok (photo_open w k destination, Reopened)) ∧
  (filename_formatted cwd source ≠ new_filename_formatted cwd outpath source →
     path_exists w destination = false →
     (∀ image, band_image tables w band = Ok image →
        correct_band cwd outpath tables w band =
          Ok (photo_open (image_save w destination image) k destination, Corrected)) ∧
     (band_image tables w band = Raise ValueError →
        correct_band cwd outpath tables w band = Ok (disable w k, Disabled))).
Proof.
  intros Hg. cbn zeta. unfold correct_band. rewrite Hg.
  split; [|split].
  - intros Heq. apply String.eqb_eq in Heq. by rewrite Heq.
  - intros Hne Hex. apply String.eqb_neq in Hne. by rewrite Hne, Hex.
  - intros Hne Hex. apply String.eqb_neq in Hne. rewrite Hne, Hex.
    split.
    + intros image Himg. by rewrite Himg.
    + intros Himg. by rewrite Himg.
Qed.

(** After a correction the image is on disk at the destination and is the
    band's open photo. *)
Lemma corrected_band_state (w : World) (k : nat) (destination : string)
    (image : PSImage) :
  let w' := photo_open (image_save w destination image) k destination in
  files w' !! destination = Some image ∧
  photo (bands w' k) = image ∧
  photo_path (bands w' k) = destination.
Proof.
  cbn. rewrite Nat.eqb_refl. cbn. by rewrite lookup_insert_eq.
Qed.

(** C2 (amended). In the loop writing the corrected images, a band of
    the calibration camera group is left untouched. A band with no camera
    group is left untouched when its resolved source path equals its
    resolved destination path, has the file at its destination re-opened
    as its photo when one exists, and otherwise has [BRDFImage] run for
    it: when that returns an image, the image is written to the
    destination and re-opened as the band's photo; when it raises
    [ValueError], nothing is written and the band is disabled. *)
Theorem correct_band_cases (cwd outpath : string) (tables : Tables) (w : World)
    (band : Band) :
  let k := band_id band in
  let source := photo_path (bands w k) in
  let destination := new_path outpath source in
  (group_label band = Some "Calibration images"%string →
     correct_band cwd outpath tables w band = Ok (w, SkippedCalibration)) ∧
  (group_label band = None →
     (filename_formatted cwd source = new_filename_formatted cwd outpath source →
        correct_band cwd outpath tables w band = Ok (w, SkippedSamePath)) ∧
     (filename_formatted cwd source ≠ new_filename_formatted cwd outpath source →
        path_exists w destination = true →
        correct_band cwd outpath tables w band =
          Ok (photo_open w k destination, Reopened) ∧
        files (photo_open w k destination) = files w) ∧
     (filename_formatted cwd source ≠ new_filename_formatted cwd outpath source →
        path_exists w destination = false →
        (∀ image, band_image tables w band = Ok image →
           let w' := photo_open (image_save w destination image) k destination in
           correct_band cwd outpath tables w band = Ok (w', Corrected) ∧
           files w' !! destination = Some image ∧
           photo (bands w' k) = image) ∧
        (band_image tables w band = Raise ValueError →
           correct_band cwd outpath tables w band = Ok (disable w k, Disabled) ∧
           files (disable w k) = files w ∧
           enabled (bands (disable w k) k) = false))).
Proof.
  cbn zeta. split.
  - intros Hg. unfold correct_band. by rewrite Hg.
  - intros Hg.
    destruct (correct_band_ungrouped cwd outpath tables w band Hg)
      as (Hsame & Hopen & Hrun).
    split; [exact Hsame|]. split.
    + intros Hne Hex. split; [by apply Hopen|done].
    + intros Hne Hex. destruct (Hrun Hne Hex) as [Hok Hval]. split.
      * intros image Himg. split; [by apply Hok|].
        destruct (corrected_band_state w (band_id band)
                    (new_path outpath (photo_path (bands w (band_id band)))) image)
          as (Hf & Hp & _).
        done.
      * intros Himg. split; [by apply Hval|]. split; [done|].
        cbn. by rewrite Nat.eqb_refl.
Qed.


End CorrectionFacts.

Section CorrectionExamples.

Import Examples.

#[local] Existing Instance toy_learn.

(** A dense set of tie points gives an image: twice the intensity in the
    dark half, the 8-bit maximum in the bright half. *)
Example BRDFImage_dense :
  ∃ image,
    BRDFImage open_photos (plane 0) (camera_table dense_ids) (point_table dense_ids)
      flat_angles = Ok image ∧
    pixel image 0 0 == 100 ∧ pixel image 3 2 == 255.
Proof.
  destruct (BRDFImage open_photos (plane 0) (camera_table dense_ids)
              (point_table dense_ids) flat_angles) as [image|e] eqn:E.
  - exists image. split; [done|]. vm_compute in E. injection E as <-.
    split; vm_compute; reflexivity.
  - vm_compute in E. discriminate.
Qed.

(** Tie points on one feature only: the empty array of the other feature
    makes [SearchForOutliers] raise [IndexError], which the loop of
    [BRDFCorrection] does not catch. *)
Example BRDFImage_one_feature :
  BRDFImage open_photos (plane 0) (camera_table dark_ids) (point_table dark_ids)
    flat_angles = Raise IndexError ∧
  correct_band "/" outpath (tables_for dark_ids) fresh_world (plane 0)
    = Raise IndexError.
Proof. split; vm_compute; reflexivity. Qed.

(** A band of a camera group other than the calibration group is passed
    over, although it has no corrected image. *)
Example grouped_band_passed_over :
  ∃ w, correct_band "/" outpath (tables_for dense_ids) fresh_world
         (grouped_plane 0 "Flight 1") = Ok (w, PassedOver) ∧
       files w = ∅ ∧ photo_path (bands w 0) = source_path 0.
Proof. eexists. split; [reflexivity|]. split; reflexivity. Qed.

Lemma BRDFImage_clipped_witness :
  ∃ image,
    BRDFImage open_photos (plane 0) (camera_table dense_ids) (point_table dense_ids)
      flat_angles = Ok image ∧
    im_width image = im_width half_image ∧
    im_height image = im_height half_image ∧
    data_type image = U8 ∧
    ∀ u v, 0 <= pixel image u v ∧ pixel image u v <= 255.
Proof.
  destruct (BRDFImage open_photos (plane 0) (camera_table dense_ids)
              (point_table dense_ids) flat_angles) as [image|e] eqn:E.
  - exists image. split; [done|].
    destruct (BRDFImage_clipped open_photos (plane 0) (camera_table dense_ids)
                (point_table dense_ids) flat_angles image E)
      as (_ & _ & Hty & Hdims & _ & HU8).
    destruct (Hdims eq_refl eq_refl) as [Hw Hh].
    split; [exact Hw|]. split; [exact Hh|]. split; [exact Hty|].
    exact (HU8 eq_refl).
  - vm_compute in E. discriminate.
Defined.



(** C2, as stated, fails: a band with no camera group, a destination other
    than its source and no file at the destination, for which [BRDFImage]
    raises [ValueError], gets no corrected image; it is disabled. *)
Lemma band_neither_skipped_nor_corrected :
  let source := photo_path (bands fresh_world 0) in
  group_label (plane 0) = None ∧
  filename_formatted "/" source ≠ new_filename_formatted "/" outpath source ∧
  path_exists fresh_world (new_path outpath source) = false ∧
  correct_band "/" outpath (tables_for sparse_ids) fresh_world (plane 0)
    = Ok (disable fresh_world 0, Disabled) ∧
  files (disable fresh_world 0) = ∅ ∧
  enabled (bands (disable fresh_world 0) 0) = false.
Proof.
  cbn zeta. split; [reflexivity|]. split.
  { intros Heq. vm_compute in Heq. discriminate. }
  split; [vm_compute; reflexivity|]. split; [|split; reflexivity].
  apply (correct_band_ungrouped "/" outpath (tables_for sparse_ids) fresh_world (plane 0)).
  - reflexivity.
  - intros Heq. vm_compute in Heq. discriminate.
  - vm_compute. reflexivity.
  - vm_compute. reflexivity.
Qed.

Lemma correct_band_cases_witness :
  correct_band "/" outpath (tables_for dense_ids) fresh_world
    (grouped_plane 0 "Calibration images") = Ok (fresh_world, SkippedCalibration) ∧
  correct_band "/" outpath (tables_for dense_ids) nested_world (plane 0)
    = Ok (nested_world, SkippedSamePath) ∧
  correct_band "/" outpath (tables_for dense_ids) stocked_world (plane 0)
    = Ok (photo_open stocked_world 0
            "/data/project.Chunk 1.BRDF_corrected/IMG_0001.tif", Reopened) ∧
  (∃ image,
     correct_band "/" outpath (tables_for dense_ids) fresh_world (plane 0)
       = Ok (photo_open
               (image_save fresh_world
                  "/data/project.Chunk 1.BRDF_corrected/IMG_0001.tif" image)
               0 "/data/project.Chunk 1.BRDF_corrected/IMG_0001.tif", Corrected)) ∧
  correct_band "/" outpath (tables_for sparse_ids) fresh_world (plane 0)
    = Ok (disable fresh_world 0, Disabled).
Proof.
  split; [|split; [|split; [|split]]].
  - apply (correct_band_cases "/" outpath (tables_for dense_ids) fresh_world
             (grouped_plane 0 "Calibration images")).
    reflexivity.
  - apply (correct_band_cases "/" outpath (tables_for dense_ids) nested_world (plane 0));
      [reflexivity | vm_compute; reflexivity].
  - apply (correct_band_cases "/" outpath (tables_for dense_ids) stocked_world (plane 0));
      [reflexivity | intros Heq; vm_compute in Heq; discriminate
      | vm_compute; reflexivity].
  - destruct (band_image (tables_for dense_ids) fresh_world (plane 0))
      as [image|e] eqn:E; [|vm_compute in E; discriminate].
    exists image.
    apply (correct_band_cases "/" outpath (tables_for dense_ids) fresh_world (plane 0));
      [reflexivity | intros Heq; vm_compute in Heq; discriminate
      | vm_compute; reflexivity | exact E].
  - apply (correct_band_cases "/" outpath (tables_for sparse_ids) fresh_world (plane 0));
      [reflexivity | intros Heq; vm_compute in Heq; discriminate
      | vm_compute; reflexivity | vm_compute; reflexivity].
Defined.

(** The whole of [BRDFCorrection] on three cameras: with every pixel a tie
    point each band is corrected in turn; with two tie points each band is
    disabled and nothing is written. *)
Example BRDFCorrection_three_cameras :
  (∃ w, BRDFCorrection (H1 := toy_scene) false true "/" "/data/project.psx"
          (three_cameras dense_ids) fresh_world
        = Ok (w, [Corrected; Corrected; Corrected]) ∧
        size (files w) = 3%nat ∧
        photo_path (bands w 2) = "/data/project.Chunk 1.BRDF_corrected/IMG_0003.tif"%string) ∧
  (∃ w, BRDFCorrection (H1 := toy_scene) false true "/" "/data/project.psx"
          (three_cameras sparse_ids) fresh_world
        = Ok (w, [Disabled; Disabled; Disabled]) ∧
        files w = ∅ ∧
        map (λ k, enabled (bands w k)) [0; 1; 2]%nat = [false; false; false]).
Proof.
  split.
  - destruct (BRDFCorrection (H1 := toy_scene) false true "/" "/data/project.psx"
                (three_cameras dense_ids) fresh_world) as [[w a]|e] eqn:E;
      vm_compute in E; [|discriminate].
    injection E as <- <-. eexists. split; [reflexivity|].
    split; vm_compute; reflexivity.
  - destruct (BRDFCorrection (H1 := toy_scene) false true "/" "/data/project.psx"
                (three_cameras sparse_ids) fresh_world) as [[w a]|e] eqn:E;
      vm_compute in E; [|discriminate].
    injection E as <- <-. eexists. split; [reflexivity|].
    split; vm_compute; reflexivity.
Qed.

End CorrectionExamples.

Section CollateExamples.

Import Examples.

(** The builder on four cameras and three tracks, one of them seen by two
    cameras only. *)
Example four_matches_points :
  (size <$> four_matches.2 !! 0%nat) = Some 4%nat ∧
  (size <$> four_matches.2 !! 1%nat) = Some 2%nat ∧
  (size <$> four_matches.2 !! 2%nat) = Some 4%nat ∧
  dom four_matches.1 = ({[0; 1; 2; 3]} : gset nat)%nat.
Proof. repeat split; vm_compute; reflexivity. Qed.

Lemma CollateMatchList_retains_witness :
  let '(cm', pm') := CollateMatchList four_matches.1 four_matches.2 in
  (0%nat ∈ dom pm' ∧ (1%nat ∉ dom pm') ∧ 2%nat ∈ dom pm') ∧
  dom cm' = dom four_matches.1 ∧
  ∀ camera points', cm' !! camera = Some points' → points' !! 1%nat = None.
Proof.
  pose proof (CollateMatchList_retains four_matches.1 four_matches.2) as Hspec.
  destruct (CollateMatchList four_matches.1 four_matches.2) as [cm' pm'].
  destruct Hspec as (Hpm & Hdom & Hcams & Hcm).
  assert (H1 : 1%nat ∉ dom pm').
  { rewrite Hdom. intros (value & Hv & Hsize).
    vm_compute in Hv. injection Hv as <-. vm_compute in Hsize. lia. }
  split; [|split; [exact Hcams|]].
  - split; [|split; [exact H1|]].
    + apply Hdom. eexists. split; [vm_compute; reflexivity|]. vm_compute. lia.
    + apply Hdom. eexists. split; [vm_compute; reflexivity|]. vm_compute. lia.
  - intros camera points' Hc.
    destruct (Hcm camera points' Hc) as (points & _ & Hpts).
    destruct (points' !! 1%nat) as [coord|] eqn:E; [|done].
    apply Hpts in E as [_ Hin]. contradiction.
Defined.

End CollateExamples.

(** ** The merge join of [GetPointMatchList] *)

Import Tables.

Section MergeJoinFacts.

Implicit Types (points : list Z) (c : Cursor) (p : Projection).

Lemma sorted_lookup_lt points (i j : nat) (a b : Z) :
  StronglySorted Z.lt points → (i < j)%nat →
  points !! i = Some a → points !! j = Some b → (a < b)%Z.
Proof.
  intros Hs. revert i j. induction Hs as [|x l Hs IH Hall]; intros i j Hij Hi Hj.
  - done.
  - destruct j as [|j]; [lia|]. cbn in Hj. destruct i as [|i]; cbn in Hi.
    + injection Hi as <-. rewrite Forall_forall in Hall. apply Hall.
      by eapply list_elem_of_lookup_2.
    + apply (IH i j); [lia|done|done].
Qed.

Lemma sorted_lookup_inj points (i j : nat) (a : Z) :
  StronglySorted Z.lt points →
  points !! i = Some a → points !! j = Some a → i = j.
Proof.
  intros Hs Hi Hj. destruct (Nat.lt_trichotomy i j) as [Hlt|[Heq|Hgt]]; [|done|].
  - pose proof (sorted_lookup_lt points i j a a Hs Hlt Hi Hj). lia.
  - pose proof (sorted_lookup_lt points j i a a Hs Hgt Hj Hi). lia.
Qed.

(** The [while] of the merge join stops at the first point, from
    [point_index] on, whose track id is not below the one looked for. *)
Lemma advance_spec points (rest : list Z) (idx : nat) (tid : Z) rest' (idx' : nat) :
  rest = drop idx points →
  advance rest idx tid = (rest', idx') →
  rest' = drop idx' points ∧ (idx ≤ idx')%nat ∧
  (∀ j t, (idx ≤ j < idx')%nat → points !! j = Some t → (t < tid)%Z) ∧
  (∀ t, points !! idx' = Some t → (tid ≤ t)%Z).
Proof.
  revert idx. induction rest as [|t rest IH]; intros idx Hrest; cbn [advance].
  - intros [= <- <-]. split; [done|]. split; [done|]. split; [intros; lia|].
    intros t Ht. assert (Hlen : (length points ≤ idx)%nat).
    { apply (f_equal length) in Hrest. rewrite length_drop in Hrest. cbn in Hrest. lia. }
    apply lookup_lt_Some in Ht. lia.
  - assert (Hidx : points !! idx = Some t).
    { rewrite <- (Nat.add_0_r idx), <- lookup_drop, <- Hrest. done. }
    assert (Hnext : rest = drop (S idx) points).
    { rewrite (drop_S _ _ _ Hidx) in Hrest. by injection Hrest. }
    destruct (t <? tid)%Z eqn:E.
    + intros Hadv. destruct (IH (S idx) Hnext Hadv) as (Hr & Hle & Hlt & Hge).
      split; [done|]. split; [lia|]. split; [|done].
      intros j t' [Hj1 Hj2] Ht'. destruct (decide (j = idx)) as [->|Hne].
      * rewrite Hidx in Ht'. injection Ht' as <-. by apply Z.ltb_lt.
      * apply (Hlt j); [lia|done].
    + intros [= <- <-]. split; [done|]. split; [done|]. split; [intros; lia|].
      intros t' Ht'. rewrite Hidx in Ht'. injection Ht' as <-. by apply Z.ltb_ge.
Qed.

(** One projection of a sorted list against sorted points: the cursor
    stays a suffix of the points, everything before it is below the track
    id, and [total] gains the entry of the one point with that track id,
    if there is one. *)
Lemma match_projection_step points (key : nat) c p :
  StronglySorted Z.lt points →
  cur_rest c = drop (cur_index c) points →
  (∀ j t, (j < cur_index c)%nat → points !! j = Some t → (t < proj_track_id p)%Z) →
  let c' := match_projection key c p in
  cur_rest c' = drop (cur_index c') points ∧
  (∀ j t, (j < cur_index c')%nat → points !! j = Some t → (t < proj_track_id p)%Z) ∧
  (∀ i coord,
     cur_total c' !! i = Some coord ↔
     (points !! i = Some (proj_track_id p) ∧ coord = proj_coord p) ∨
     (cur_total c !! i = Some coord ∧ points !! i ≠ Some (proj_track_id p))).
Proof.
  intros Hs Hrest Hbelow. cbn zeta. unfold match_projection.
  destruct (advance (cur_rest c) (cur_index c) (proj_track_id p)) as [rest' idx'] eqn:Hadv.
  destruct (advance_spec points _ _ _ _ _ Hrest Hadv) as (Hr & Hle & Hlt & Hge).
  assert (Hbelow' : ∀ j t, (j < idx')%nat → points !! j = Some t →
                           (t < proj_track_id p)%Z).
  { intros j t Hj Ht. destruct (decide (j < cur_index c)%nat).
    - by apply (Hbelow j).
    - apply (Hlt j); [lia|done]. }
  assert (Hmiss : (∀ t, points !! idx' = Some t → t ≠ proj_track_id p) →
                  ∀ i, points !! i ≠ Some (proj_track_id p)).
  { intros Hne i Hi. destruct (Nat.lt_trichotomy i idx') as [Hlt'|[->|Hgt]].
    - pose proof (Hbelow' i _ Hlt' Hi). lia.
    - by apply (Hne _ Hi).
    - destruct (points !! idx') as [t|] eqn:Ht.
      + pose proof (sorted_lookup_lt points idx' i t _ Hs Hgt Ht Hi).
        pose proof (Hge t eq_refl). lia.
      + apply lookup_ge_None in Ht. apply lookup_lt_Some in Hi. lia. }
  destruct rest' as [|t rest''].
  - cbn. split; [done|]. split; [done|]. intros i coord.
    assert (Hnone : points !! idx' = None).
    { apply lookup_ge_None. apply (f_equal length) in Hr.
      rewrite length_drop in Hr. cbn in Hr. lia. }
    assert (Hno := Hmiss ltac:(intros t Ht; congruence)).
    split; [intros Hi; right; split; [done|apply Hno]|].
    intros [[Hi _]|[Hi _]]; [by apply Hno in Hi|done].
  - assert (Hidx : points !! idx' = Some t).
    { rewrite <- (Nat.add_0_r idx'), <- lookup_drop, <- Hr. done. }
    destruct (t =? proj_track_id p)%Z eqn:E.
    + apply Z.eqb_eq in E. subst t. cbn. split; [done|]. split; [done|].
      intros i coord. destruct (decide (i = idx')) as [->|Hne].
      * rewrite lookup_insert_eq. split.
        -- intros [= <-]. by left.
        -- intros [[_ ->]|[_ Hn]]; [done|by destruct Hn].
      * rewrite lookup_insert_ne by done. split.
        -- intros Hi. right. split; [done|]. intros Hp.
           apply Hne. by apply (sorted_lookup_inj points i idx' (proj_track_id p) Hs).
        -- intros [[Hp _]|[Hi _]]; [|done].
           destruct Hne. by apply (sorted_lookup_inj points i idx' (proj_track_id p) Hs).
    + apply Z.eqb_neq in E. cbn. split; [done|]. split; [done|].
      intros i coord.
      assert (Hno := Hmiss ltac:(intros t' Ht'; congruence)).
      split; [intros Hi; right; split; [done|apply Hno]|].
      intros [[Hi _]|[Hi _]]; [by apply Hno in Hi|done].
Qed.

(** The inner loop over a camera's projections, both lists sorted by
    track id: [total] ends with exactly one entry per projection whose
    track id is a tie point's, at that tie point's index. *)
Lemma match_projections_total points (key : nat) (projs : list Projection) c :
  StronglySorted Z.lt points →
  StronglySorted Z.lt (map proj_track_id projs) →
  cur_rest c = drop (cur_index c) points →
  (∀ j t p, (j < cur_index c)%nat → points !! j = Some t → p ∈ projs →
            (t < proj_track_id p)%Z) →
  ∀ i coord,
    cur_total (foldl (match_projection key) c projs) !! i = Some coord ↔
    (∃ p, p ∈ projs ∧ points !! i = Some (proj_track_id p) ∧ coord = proj_coord p) ∨
    (cur_total c !! i = Some coord ∧
     ∀ p, p ∈ projs → points !! i ≠ Some (proj_track_id p)).
Proof.
  intros Hs. revert c. induction projs as [|p projs IH]; intros c Hps Hrest Hbelow i coord.
  - cbn. split.
    + intros Hi. right. split; [done|]. intros p Hp. by apply not_elem_of_nil in Hp.
    + intros [(p & Hp & _)|[Hi _]]; [by apply not_elem_of_nil in Hp|done].
  - cbn [foldl]. cbn [map] in Hps. apply StronglySorted_inv in Hps as [Hps Hall].
    destruct (match_projection_step points key c p Hs Hrest) as (Hr1 & Hb1 & Ht1).
    { intros j t Hj Ht. apply (Hbelow j t p Hj Ht). by left. }
    assert (Hlater : ∀ p', p' ∈ projs → (proj_track_id p < proj_track_id p')%Z).
    { intros p' Hp'. rewrite Forall_forall in Hall. apply Hall.
      apply list_elem_of_fmap. by exists p'. }
    rewrite (IH (match_projection key c p) Hps Hr1); cycle 1.
    { intros j t p' Hj Ht Hp'. pose proof (Hb1 j t Hj Ht).
      pose proof (Hlater p' Hp'). lia. }
    rewrite Ht1. split.
    + intros [(p' & Hp' & Hi & ->)|[[[Hi ->]|[Hi Hn]] Hrest']].
      * left. exists p'. split; [by right|done].
      * left. exists p. split; [by left|done].
      * right. split; [done|]. intros p' Hp'.
        apply elem_of_cons in Hp' as [->|Hp']; [done|by apply Hrest'].
    + intros [(p' & Hp' & Hi & ->)|[Hi Hn]].
      * apply elem_of_cons in Hp' as [->|Hp'].
        -- right. split; [by left|]. intros q Hq Hiq.
           rewrite Hi in Hiq. injection Hiq as Heq.
           pose proof (Hlater q Hq). lia.
        -- left. eauto.
      * right. split.
        -- right. split; [done|]. apply Hn. by left.
        -- intros p' Hp'. apply Hn. by right.
Qed.

(** Without any order on the lists, [total] and the [key] column of
    [point_matches] are written together and no other column is. *)
Lemma match_projection_lockstep (key : nat) c p :
  (∀ i, observation (cur_points c) i key = cur_total c !! i) →
  let c' := match_projection key c p in
  (∀ i, observation (cur_points c') i key = cur_total c' !! i) ∧
  (∀ i k, k ≠ key → observation (cur_points c') i k = observation (cur_points c) i k).
Proof.
  intros Hlock. cbn zeta. unfold match_projection.
  destruct (advance (cur_rest c) (cur_index c) (proj_track_id p)) as [rest' idx'].
  destruct rest' as [|t rest'']; [done|].
  destruct (t =? proj_track_id p)%Z; [|done]. cbn. split.
  - intros i. unfold observation. destruct (decide (i = idx')) as [->|Hne].
    + rewrite !lookup_insert_eq. cbn. by rewrite lookup_insert_eq.
    + rewrite !lookup_insert_ne by done. apply Hlock.
  - intros i k Hk. unfold observation. destruct (decide (i = idx')) as [->|Hne].
    + rewrite lookup_insert_eq. cbn. rewrite lookup_insert_ne by done.
      by destruct (cur_points c !! idx').
    + by rewrite lookup_insert_ne.
Qed.

Lemma match_projections_lockstep (key : nat) (projs : list Projection) c :
  (∀ i, observation (cur_points c) i key = cur_total c !! i) →
  let c' := foldl (match_projection key) c projs in
  (∀ i, observation (cur_points c') i key = cur_total c' !! i) ∧
  (∀ i k, k ≠ key → observation (cur_points c') i k = observation (cur_points c) i k).
Proof.
  revert c. induction projs as [|p projs IH]; intros c Hlock; cbn zeta; [done|].
  cbn [foldl].
  destruct (match_projection_lockstep key c p Hlock) as [Hl1 Ho1].
  destruct (IH _ Hl1) as [Hl2 Ho2]. split; [done|].
  intros i k Hk. rewrite Ho2 by done. by apply Ho1.
Qed.

(** The camera loop keeps the two tables transposes of each other, as
    long as no two cameras are filed under one key. *)
Lemma match_cameras_transpose points (point_proj : nat → list Projection)
    (band : option nat) (cameras : list Camera)
    (acc : CameraMatches * PointMatches) :
  NoDup (band_keys cameras band) →
  (∀ k, k ∈ band_keys cameras band → acc.1 !! k = None) →
  (∀ i k, observation acc.2 i k = observation acc.1 k i) →
  let r := foldl (match_camera points point_proj band) acc cameras in
  ∀ i k, observation r.2 i k = observation r.1 k i.
Proof.
  revert acc. induction cameras as [|camera cameras IH];
    intros acc Hnd Hfresh Htr; cbn zeta; [done|].
  cbn [foldl]. cbn [band_keys map] in Hnd, Hfresh.
  apply NoDup_cons in Hnd as [Hnew Hnd].
  set (key := band_key camera band) in *.
  destruct (match_projections_lockstep key (point_proj key)
              {| cur_rest := points; cur_index := 0%nat;
                 cur_total := ∅; cur_points := acc.2 |}) as [Hl Ho].
  { intros i. cbn. rewrite Htr. unfold observation.
    rewrite (Hfresh key) by (by left). by rewrite lookup_empty. }
  apply IH; [done| |].
  - intros k Hk. unfold match_camera. cbn. fold key.
    rewrite lookup_insert_ne by (intros ->; done).
    apply Hfresh. by right.
  - intros i k. unfold match_camera. cbn. fold key.
    destruct (decide (k = key)) as [->|Hne].
    + rewrite Hl. unfold observation. by rewrite lookup_insert_eq.
    + rewrite Ho by done. cbn. rewrite Htr. unfold observation.
      by rewrite lookup_insert_ne.
Qed.

(** Every camera table the camera loop files is the join of that
    camera's projections with the points. *)
Lemma match_cameras_join points (point_proj : nat → list Projection)
    (band : option nat) (cameras : list Camera)
    (acc : CameraMatches * PointMatches) :
  StronglySorted Z.lt points →
  (∀ k, k ∈ band_keys cameras band →
        StronglySorted Z.lt (map proj_track_id (point_proj k))) →
  let joined (k : nat) (total : gmap nat Coord) :=
    ∀ i coord, total !! i = Some coord ↔
      ∃ p, p ∈ point_proj k ∧ points !! i = Some (proj_track_id p) ∧
           coord = proj_coord p in
  (∀ k total, acc.1 !! k = Some total → joined k total) →
  let r := foldl (match_camera points point_proj band) acc cameras in
  dom r.1 = list_to_set (band_keys cameras band) ∪ dom acc.1 ∧
  ∀ k total, r.1 !! k = Some total → joined k total.
Proof.
  intros Hs. revert acc. induction cameras as [|camera cameras IH];
    intros acc Hps joined Hacc; cbn zeta.
  - cbn. split; [by rewrite (left_id_L ∅ (∪))|done].
  - cbn [foldl]. cbn [band_keys map] in Hps |- *.
    set (key := band_key camera band) in *.
    destruct (IH (match_camera points point_proj band acc camera)) as [Hdom Hj].
    { intros k Hk. apply Hps. by right. }
    { intros k total. unfold match_camera. cbn. fold key.
      destruct (decide (k = key)) as [->|Hne].
      - rewrite lookup_insert_eq. intros [= <-]. intros i coord.
        rewrite (match_projections_total points key (point_proj key) _ Hs);
          [|apply Hps; by left|done|cbn; intros; lia].
        cbn. split.
        + intros [Hp|[Hi _]]; [done|]. by rewrite lookup_empty in Hi.
        + intros Hp. by left.
      - rewrite lookup_insert_ne by done. apply Hacc. }
    split; [|exact Hj].
    rewrite Hdom. unfold match_camera. cbn. fold key.
    rewrite dom_insert_L. cbn [list_to_set].
    rewrite (assoc_L (∪)). f_equal. apply (comm_L (∪)).
Qed.

(** The point table of [GetPointMatchList], cell by cell. *)
Lemma builder_observation points (cameras : list Camera)
    (point_proj : nat → list Projection) (band : option nat) :
  StronglySorted Z.lt points →
  NoDup (band_keys cameras band) →
  (∀ k, k ∈ band_keys cameras band →
        StronglySorted Z.lt (map proj_track_id (point_proj k))) →
  ∀ i k coord,
    observation (GetPointMatchList points cameras point_proj band).2 i k = Some coord ↔
    k ∈ band_keys cameras band ∧
    ∃ p, p ∈ point_proj k ∧ points !! i = Some (proj_track_id p) ∧
         coord = proj_coord p.
Proof.
  intros Hs Hnd Hps i k coord. unfold GetPointMatchList.
  rewrite (match_cameras_transpose points point_proj band cameras (∅, ∅) Hnd);
    [|intros; apply lookup_empty
     |intros; unfold observation; cbn; by rewrite !lookup_empty].
  destruct (match_cameras_join points point_proj band cameras (∅, ∅) Hs Hps)
    as [Hdom Hj].
  { intros k' total Hk. cbn in Hk. by rewrite lookup_empty in Hk. }
  cbn zeta in Hdom, Hj. unfold observation. rewrite bind_Some. split.
  - intros (total & Hk & Hi). split.
    + assert (Hin : k ∈ dom (foldl (match_camera points point_proj band) (∅, ∅) cameras).1)
        by (apply elem_of_dom; eauto).
      rewrite Hdom in Hin. cbn in Hin. rewrite dom_empty_L in Hin.
      rewrite (right_id_L ∅ (∪)) in Hin. by apply elem_of_list_to_set in Hin.
    + by apply (Hj k total Hk).
  - intros [Hin Hp].
    assert (Hk : k ∈ dom (foldl (match_camera points point_proj band) (∅, ∅) cameras).1).
    { rewrite Hdom. cbn. rewrite dom_empty_L, (right_id_L ∅ (∪)).
      by apply elem_of_list_to_set. }
    apply elem_of_dom in Hk as [total Hk]. exists total. split; [done|].
    by apply (Hj k total Hk).
Qed.

(** X1. With the tie points and every camera's projections in strictly
    ascending order of track id, [GetPointMatchList] files one table per
    camera key, and a camera's table holds the coordinate [coord] at the
    point index [i] exactly when the camera has a projection with the
    track id of point [i] and that coordinate. *)
Theorem GetPointMatchList_merge_join points (cameras : list Camera)
    (point_proj : nat → list Projection) (band : option nat) :
  StronglySorted Z.lt points →
  (∀ k, k ∈ band_keys cameras band →
        StronglySorted Z.lt (map proj_track_id (point_proj k))) →
  let '(cm, pm) := GetPointMatchList points cameras point_proj band in
  dom cm = list_to_set (band_keys cameras band) ∧
  ∀ k total, cm !! k = Some total →
    ∀ i coord, total !! i = Some coord ↔
      ∃ p, p ∈ point_proj k ∧ points !! i = Some (proj_track_id p) ∧
           coord = proj_coord p.
Proof.
  intros Hs Hps. unfold GetPointMatchList.
  destruct (match_cameras_join points point_proj band cameras (∅, ∅) Hs Hps)
    as [Hdom Hj].
  { intros k total Hk. cbn in Hk. by rewrite lookup_empty in Hk. }
  destruct (foldl _ _ cameras) as [cm pm]. cbn in Hdom, Hj.
  split; [|done]. rewrite Hdom, dom_empty_L. by rewrite (right_id_L ∅ (∪)).
Qed.

(** X2. When no two cameras are filed under the same key, the two tables
    of [GetPointMatchList] are transposes of each other:
    [point_matches[i][k]] and [camera_matches[k][i]] are the same
    coordinate, or both missing. *)
Theorem GetPointMatchList_transpose points (cameras : list Camera)
    (point_proj : nat → list Projection) (band : option nat) :
  NoDup (band_keys cameras band) →
  let '(cm, pm) := GetPointMatchList points cameras point_proj band in
  ∀ i k, observation pm i k = observation cm k i.
Proof.
  intros Hnd. unfold GetPointMatchList.
  pose proof (match_cameras_transpose points point_proj band cameras (∅, ∅) Hnd)
    as Htr.
  destruct (foldl _ _ cameras) as [cm pm]. apply Htr.
  - intros k _. apply lookup_empty.
  - intros i k. unfold observation. cbn. by rewrite !lookup_empty.
Qed.

End MergeJoinFacts.

Section MergeJoinExamples.

Import Examples.

Lemma sorted_three : StronglySorted Z.lt [10; 20; 30]%Z.
Proof. repeat (constructor; [|repeat (constructor; try lia)]). constructor. Defined.

Lemma GetPointMatchList_merge_join_witness :
  dom four_matches.1 = list_to_set (band_keys four_cameras (Some 0%nat)) ∧
  ∀ k total, four_matches.1 !! k = Some total →
    ∀ i coord, total !! i = Some coord ↔
      ∃ p, p ∈ four_projections k ∧
           [10; 20; 30]%Z !! i = Some (proj_track_id p) ∧ coord = proj_coord p.
Proof.
  apply (GetPointMatchList_merge_join [10; 20; 30]%Z four_cameras four_projections
           (Some 0%nat)).
  - exact sorted_three.
  - intros k _. unfold four_projections. destruct (k <? 2)%nat; cbn.
    + exact sorted_three.
    + repeat (constructor; [|repeat (constructor; try lia)]). constructor.
Defined.

Lemma GetPointMatchList_transpose_witness :
  NoDup (band_keys four_cameras (Some 0%nat)) ∧
  ∀ i k, observation four_matches.2 i k = observation four_matches.1 k i.
Proof.
  assert (Hnd : NoDup (band_keys four_cameras (Some 0%nat)))
    by (apply (bool_decide_unpack _); vm_compute; exact I).
  split; [exact Hnd|].
  exact (GetPointMatchList_transpose [10; 20; 30]%Z four_cameras four_projections
           (Some 0%nat) Hnd).
Defined.

End MergeJoinExamples.

(** ** [CollateMatchList] and its users *)

Section CollateMore.

Implicit Types (cm : CameraMatches) (pm : PointMatches).

Lemma collate_point_lookup pm (i : nat) (value : gmap nat Coord) :
  (CollateMatchList ∅ pm).2 !! i = Some value ↔
  pm !! i = Some value ∧ (3 ≤ size value)%nat.
Proof.
  cbn. rewrite map_lookup_filter_Some. cbn. unfold keep_point.
  by rewrite bool_decide_eq_true.
Qed.

Lemma collate_points_independent cm pm :
  (CollateMatchList cm pm).2 = (CollateMatchList ∅ pm).2.
Proof. reflexivity. Qed.

Lemma collate_point_observation cm pm (i k : nat) (coord : Coord) :
  observation (CollateMatchList cm pm).2 i k = Some coord ↔
  observation pm i k = Some coord ∧ i ∈ dom (CollateMatchList cm pm).2.
Proof.
  unfold observation. rewrite !bind_Some, elem_of_dom. split.
  - intros (value & Hv & Hk). pose proof Hv as Hv'.
    apply collate_point_lookup in Hv as [Hv _]. eauto.
  - intros [(value & Hv & Hk) [value' Hv']]. pose proof Hv' as Hv''.
    apply collate_point_lookup in Hv' as [Hv' _].
    rewrite Hv in Hv'. injection Hv' as <-. eauto.
Qed.

Lemma collate_camera_observation cm pm (i k : nat) (coord : Coord) :
  observation (CollateMatchList cm pm).1 k i = Some coord ↔
  observation cm k i = Some coord ∧ i ∈ dom (CollateMatchList cm pm).2.
Proof.
  unfold observation. rewrite !bind_Some. cbn. split.
  - intros (points' & Hc & Hi). apply lookup_fmap_Some in Hc as (points & <- & Hc).
    apply map_lookup_filter_Some in Hi as [Hi Hkeep]. eauto.
  - intros [(points & Hc & Hi) Hkeep]. eexists. split.
    + rewrite lookup_fmap, Hc. done.
    + by apply map_lookup_filter_Some.
Qed.

(** Collating keeps transposed tables transposed, and makes every kept
    point one with at least three observations, each of them also in the
    table of its camera. *)
Lemma collate_consistent cm pm :
  (∀ i k, observation pm i k = observation cm k i) →
  (∀ i k, observation (CollateMatchList cm pm).2 i k
          = observation (CollateMatchList cm pm).1 k i) ∧
  (∀ i value, (CollateMatchList cm pm).2 !! i = Some value →
     (3 ≤ size value)%nat ∧
     ∀ k, value !! k = observation (CollateMatchList cm pm).1 k i).
Proof.
  intros Htr.
  assert (Hobs : ∀ i k, observation (CollateMatchList cm pm).2 i k
                        = observation (CollateMatchList cm pm).1 k i).
  { intros i k. apply option_eq. intros coord.
    rewrite collate_point_observation, collate_camera_observation.
    by rewrite Htr. }
  split; [exact Hobs|].
  intros i value Hv. split.
  - rewrite collate_points_independent in Hv.
    by apply collate_point_lookup in Hv as [_ Hsize].
  - intros k. rewrite <- Hobs. unfold observation. by rewrite Hv.
Qed.

(** X3. Collating tables that are transposes of each other gives tables
    that are transposes of each other again; every tie point kept has at
    least three observations, and each of them is also found in the
    collated table of its camera. *)
Theorem CollateMatchList_consistent cm pm :
  (∀ i k, observation pm i k = observation cm k i) →
  let '(cm', pm') := CollateMatchList cm pm in
  (∀ i k, observation pm' i k = observation cm' k i) ∧
  (∀ i value, pm' !! i = Some value →
     (3 ≤ size value)%nat ∧ ∀ k, value !! k = observation cm' k i).
Proof.
  intros Htr. pose proof (collate_consistent cm pm Htr) as Hc.
  by destruct (CollateMatchList cm pm) as [cm' pm'].
Qed.

(** X4. Collating twice is collating once. *)
Theorem CollateMatchList_idempotent cm pm :
  let '(cm', pm') := CollateMatchList cm pm in
  CollateMatchList cm' pm' = (cm', pm').
Proof.
  unfold CollateMatchList. cbn zeta.
  set (P := λ kv : nat * gmap nat Coord, keep_point kv.2 = true).
  assert (Hpm : filter P (filter P pm) = filter P pm).
  { apply map_filter_id. intros i value Hv.
    by apply map_lookup_filter_Some in Hv as [_ Hkeep]. }
  rewrite Hpm. f_equal.
  rewrite <- map_fmap_compose. apply map_fmap_ext. intros k points _. cbn.
  apply map_filter_id. intros i coord Hi.
  by apply map_lookup_filter_Some in Hi as [_ Hkeep].
Qed.

(** Clearing the flags at the indices of a list. *)
Lemma clear_flags_lookup (indices : list nat) (flags : list bool) (i : nat) :
  foldl (λ flags point_index, <[point_index := false]> flags) flags indices !! i
  = (λ b, if bool_decide (i ∈ indices) then false else b) <$> flags !! i.
Proof.
  revert flags. induction indices as [|j indices IH]; intros flags; cbn [foldl].
  - destruct (flags !! i); done.
  - rewrite IH. rewrite list_lookup_insert.
    destruct (decide (j = i ∧ (j < length flags)%nat)) as [[-> Hlen]|Hn].
    + destruct (flags !! i) as [b|] eqn:E; cbn.
      * rewrite (bool_decide_eq_true_2 (i ∈ i :: indices)) by (by left).
        by destruct (bool_decide (i ∈ indices)).
      * apply lookup_ge_None in E. lia.
    + destruct (flags !! i) as [b|] eqn:E; cbn; [|done].
      assert (j ≠ i).
      { intros ->. apply Hn. split; [done|]. by apply lookup_lt_Some in E. }
      f_equal. destruct (bool_decide (i ∈ indices)) eqn:Ein.
      * apply bool_decide_eq_true in Ein.
        by rewrite bool_decide_eq_true_2 by (by right).
      * apply bool_decide_eq_false in Ein.
        rewrite bool_decide_eq_false_2; [done|].
        intros [?|?]%elem_of_cons; [congruence|done].
Qed.

(** The loop clears the flag of every tie point without an entry in the
    collated point table and touches no other flag. *)
Lemma disable_unmatched_valid (valid : list bool) pm :
  length (disable_unmatched valid pm) = length valid ∧
  ∀ i, disable_unmatched valid pm !! i
       = (λ b, b && bool_decide (i ∈ dom pm)) <$> valid !! i.
Proof.
  assert (Hlookup : ∀ i, disable_unmatched valid pm !! i
       = (λ b, b && bool_decide (i ∈ dom pm)) <$> valid !! i).
  { intros i. unfold disable_unmatched. rewrite clear_flags_lookup.
    destruct (valid !! i) as [b|] eqn:E; cbn; [|done]. f_equal.
    apply lookup_lt_Some in E.
    destruct (bool_decide (i ∈ dom pm)) eqn:Ein.
    - apply bool_decide_eq_true in Ein.
      rewrite bool_decide_eq_false_2; [by rewrite andb_true_r|].
      rewrite elem_of_elements, elem_of_difference. tauto.
    - apply bool_decide_eq_false in Ein.
      rewrite bool_decide_eq_true_2; [by rewrite andb_false_r|].
      rewrite elem_of_elements, elem_of_difference, elem_of_list_to_set, elem_of_seq.
      split; [lia|done]. }
  split; [|exact Hlookup].
  apply Nat.le_antisymm.
  - destruct (decide (length (disable_unmatched valid pm) ≤ length valid)%nat)
      as [|Hgt]; [done|].
    assert (Hin : is_Some (disable_unmatched valid pm !! length valid))
      by (apply lookup_lt_is_Some; lia).
    rewrite Hlookup in Hin. rewrite lookup_ge_None_2 in Hin by lia.
    by destruct Hin.
  - destruct (decide (length valid ≤ length (disable_unmatched valid pm))%nat)
      as [|Hgt]; [done|].
    assert (Hin : is_Some (valid !! length (disable_unmatched valid pm)))
      by (apply lookup_lt_is_Some; lia).
    destruct Hin as [b Hb].
    pose proof (Hlookup (length (disable_unmatched valid pm))) as Hl.
    rewrite Hb in Hl. cbn in Hl. apply lookup_lt_Some in Hl. lia.
Qed.

(** The number of cameras that observe a tie point is the size of its
    entry in the point table. *)
Lemma builder_point_size points (cameras : list Camera)
    (point_proj : nat → list Projection) (band : option nat) (i : nat) (t : Z) :
  StronglySorted Z.lt points →
  NoDup (band_keys cameras band) →
  (∀ k, k ∈ band_keys cameras band →
        StronglySorted Z.lt (map proj_track_id (point_proj k))) →
  points !! i = Some t →
  from_option size 0%nat ((GetPointMatchList points cameras point_proj band).2 !! i)
  = length (filter (λ k, t ∈ map proj_track_id (point_proj k))
              (band_keys cameras band)).
Proof.
  intros Hs Hnd Hps Hi.
  pose proof (builder_observation points cameras point_proj band Hs Hnd Hps) as Hobs.
  set (pm := (GetPointMatchList points cameras point_proj band).2) in *.
  set (keys := band_keys cameras band) in *.
  assert (Hseen : ∀ k, is_Some (observation pm i k) ↔
                       k ∈ filter (λ k, t ∈ map proj_track_id (point_proj k)) keys).
  { intros k. rewrite list_elem_of_filter. split.
    - intros [coord Hc]. apply Hobs in Hc as (Hk & p & Hp & Hip & _).
      split; [|done]. rewrite Hi in Hip. injection Hip as ->.
      apply list_elem_of_fmap. by exists p.
    - intros [Ht Hk]. apply list_elem_of_fmap in Ht as (p & -> & Hp).
      exists (proj_coord p). apply Hobs. eauto. }
  destruct (pm !! i) as [value|] eqn:E; cbn.
  - rewrite <- size_dom.
    assert (Hdom : dom value
                   = list_to_set (filter (λ k, t ∈ map proj_track_id (point_proj k)) keys)).
    { apply set_eq. intros k. rewrite elem_of_list_to_set, <- Hseen, elem_of_dom.
      unfold observation. by rewrite E. }
    rewrite Hdom. apply size_list_to_set. by apply NoDup_filter.
  - destruct (filter _ keys) as [|k rest] eqn:Ef; [done|].
    assert (Hk : is_Some (observation pm i k)) by (apply Hseen; by left).
    unfold observation in Hk. rewrite E in Hk. by destruct Hk.
Qed.

(** X5. The [NIR_only] block of [StandardWorkflow], on tie points and
    projections in strictly ascending order of track id and cameras filed
    under distinct keys: the number of tie points is unchanged, no flag is
    set, and a tie point stays valid exactly when at least three cameras
    have a projection of its track id in the band of index 3. *)
Theorem NIR_only_keeps_well_observed (track_ids : list Z) (cameras : list Camera)
    (point_proj : nat → list Projection) (valid : list bool) :
  StronglySorted Z.lt track_ids →
  NoDup (band_keys cameras (Some 3%nat)) →
  (∀ k, k ∈ band_keys cameras (Some 3%nat) →
        StronglySorted Z.lt (map proj_track_id (point_proj k))) →
  length (NIR_only_valid track_ids cameras point_proj valid) = length valid ∧
  ∀ i t b, track_ids !! i = Some t → valid !! i = Some b →
    NIR_only_valid track_ids cameras point_proj valid !! i
    = Some (b && bool_decide
                   (3 ≤ length (filter (λ k, t ∈ map proj_track_id (point_proj k))
                                  (band_keys cameras (Some 3%nat))))%nat).
Proof.
  intros Hs Hnd Hps.
  pose proof (builder_point_size track_ids cameras point_proj (Some 3%nat)) as Hsize.
  unfold NIR_only_valid.
  destruct (GetPointMatchList track_ids cameras point_proj (Some 3%nat))
    as [cm pm] eqn:Eb.
  destruct (CollateMatchList cm pm) as [cm' pm'] eqn:Ec.
  assert (Hpm' : pm' = (CollateMatchList ∅ pm).2) by (by injection Ec).
  destruct (disable_unmatched_valid valid pm') as [Hlen Hlookup].
  split; [exact Hlen|].
  intros i t b Hi Hb. rewrite Hlookup, Hb. cbn. do 2 f_equal.
  specialize (Hsize i t Hs Hnd Hps Hi). cbn in Hsize.
  apply bool_decide_ext. rewrite elem_of_dom, Hpm'. split.
  - intros [value Hv]. apply collate_point_lookup in Hv as [Hv Hge].
    rewrite Hv in Hsize. cbn in Hsize. lia.
  - intros Hge. destruct (pm !! i) as [value|] eqn:E; cbn in Hsize; [|lia].
    exists value. apply collate_point_lookup. split; [done|lia].
Qed.

End CollateMore.

Section CollateMoreExamples.

Import Examples MoreExamples.

Lemma CollateMatchList_consistent_witness :
  let '(cm', pm') := CollateMatchList four_matches.1 four_matches.2 in
  (∀ i k, observation pm' i k = observation cm' k i) ∧
  (∀ i value, pm' !! i = Some value →
     (3 ≤ size value)%nat ∧ ∀ k, value !! k = observation cm' k i).
Proof.
  apply (CollateMatchList_consistent four_matches.1 four_matches.2).
  apply (match_cameras_transpose [10; 20; 30]%Z four_projections (Some 0%nat)
           four_cameras (∅, ∅)).
  - apply (bool_decide_unpack _). vm_compute. exact I.
  - intros k' _. apply lookup_empty.
  - intros i' k'. unfold observation. cbn. by rewrite !lookup_empty.
Defined.

Lemma NIR_only_keeps_well_observed_witness :
  length (NIR_only_valid [10; 20; 30]%Z nir_cameras nir_projections [true; true; false])
    = 3%nat ∧
  NIR_only_valid [10; 20; 30]%Z nir_cameras nir_projections [true; true; false] !! 0%nat
    = Some (true && bool_decide
              (3 ≤ length (filter (λ k, 10%Z ∈ map proj_track_id (nir_projections k))
                             (band_keys nir_cameras (Some 3%nat))))%nat).
Proof.
  destruct (NIR_only_keeps_well_observed [10; 20; 30]%Z nir_cameras nir_projections
              [true; true; false]) as [Hlen Hflags].
  - exact sorted_three.
  - apply (bool_decide_unpack _). vm_compute. exact I.
  - intros k _. unfold nir_projections.
    repeat (destruct k as [|k]; cbn;
            [repeat (constructor; [|repeat (constructor; try lia)]); constructor|]).
    repeat (constructor; [|repeat (constructor; try lia)]); constructor.
  - split; [exact Hlen|]. by apply Hflags.
Defined.

(** The flags of three valid tie points after the block: track 20 has one
    observation in the band of index 3. *)
Example NIR_only_three_points :
  NIR_only_valid [10; 20; 30]%Z nir_cameras nir_projections [true; true; true]
  = [true; false; true].
Proof. vm_compute. reflexivity. Qed.

End CollateMoreExamples.

(** ** More on the reduction loops *)

Section ReduceMore.

Context `{Engine}.

Implicit Types (P : Policy) (s : Run) (c : Reduce.Chunk Solution).

Lemma filter_track_ids_sublist (f : Point → bool) (pts : list Point) :
  map track_id (List.filter f pts) `sublist_of` map track_id pts.
Proof.
  induction pts as [|p pts IH]; cbn; [constructor|].
  destruct (f p); cbn; by constructor.
Qed.

(** A pass never adds a tie point and never reorders them. *)
Lemma loop_body_sublist P (t : Q) s :
  aligned s →
  map track_id (point_cloud (chunk (loop_body P t s)))
    `sublist_of` map track_id (point_cloud (chunk s)).
Proof.
  intros Hal.
  destruct (too_many P (selectPoints (fltr s) (threshold s) (chunk s))
            && below_cap P (threshold s)) eqn:E.
  - apply andb_true_iff in E as [E1 E2]. rewrite loop_body_widen by done.
    cbn [chunk]. rewrite reset_track_ids, selectPoints_cloud.
    by rewrite select_track_ids.
  - apply andb_false_iff in E. rewrite loop_body_remove by done. cbn.
    etrans; [apply filter_track_ids_sublist|]. by rewrite select_track_ids.
Qed.

Lemma after_passes_sublist P (t : Q) c (n : nat) :
  map track_id (point_cloud (chunk (after_passes P t c n)))
    `sublist_of` map track_id (point_cloud c).
Proof.
  induction n as [|n IH]; [done|].
  change (after_passes P t c (S n)) with (loop_body P t (after_passes P t c n)).
  etrans; [apply loop_body_sublist|exact IH].
  apply aligned_after_passes.
Qed.

(** X6. Whenever one of the three reduction functions returns, the tie
    points it leaves are a sub-sequence of the tie points it was given:
    none is added, none is reordered. *)
Theorem ReduceError_keeps_a_subsequence (fuel : nat) c (init_threshold : Q) o :
  ReduceError_RU fuel c init_threshold = Some o ∨
  ReduceError_PA fuel c init_threshold = Some o ∨
  ReduceError_RE fuel c init_threshold = Some o →
  map track_id (point_cloud (final o)) `sublist_of` map track_id (point_cloud c).
Proof.
  unfold ReduceError_RU, ReduceError_PA, ReduceError_RE.
  intros [Hr|[Hr|Hr]].
  - destruct (reduce_loop RU fuel init_threshold c) as [[s n]|] eqn:E; [|done].
    injection Hr as <-. cbn.
    apply reduce_loop_passes in E as (-> & _). apply after_passes_sublist.
  - destruct (reduce_loop PA fuel init_threshold c) as [[s n]|] eqn:E; [|done].
    injection Hr as <-. cbn.
    apply reduce_loop_passes in E as (-> & _). apply after_passes_sublist.
  - destruct (reduce_loop RE fuel init_threshold c) as [[s n]|] eqn:E; [|done].
    injection Hr as <-. cbn.
    apply reduce_loop_passes in E as (-> & _). apply after_passes_sublist.
Qed.

(** The loop can only be left with a filter computed from the chunk as it
    then is: on entry, or after a pass that removed and re-optimised. *)
Lemma reduce_loop_fresh P (fuel : nat) (t : Q) c s (n : nat) :
  reduce_loop P fuel t c = Some (s, n) →
  fltr s = Filter_init (criterion P) (chunk s) ∧ loop_cond P s = false.
Proof.
  intros Hr. apply reduce_loop_passes in Hr as (-> & Hstop & Hbefore).
  split; [|done]. destruct n as [|n]; [done|].
  pose proof (Hbefore n (Nat.lt_succ_diag_r n)) as Hc.
  change (after_passes P t c (S n))
    with (loop_body P t (after_passes P t c n)) in *.
  set (s0 := after_passes P t c n) in *.
  destruct (too_many P (selectPoints (fltr s0) (threshold s0) (chunk s0))) eqn:E1;
    [destruct (below_cap P (threshold s0)) eqn:E2|].
  - rewrite loop_body_widen in Hstop by done.
    unfold loop_cond in *. cbn in Hstop. congruence.
  - by rewrite loop_body_remove by (by right).
  - by rewrite loop_body_remove by (by left).
Qed.

Lemma converged_values P c :
  Qgt_bool (max_value (Filter_init (criterion P) c)) (stop_value P) = false →
  Forall (λ p, filter_value (criterion P) c (track_id p) <= stop_value P)
         (point_cloud c).
Proof.
  intros Hstop. apply Qgt_bool_false, max_value_bounds in Hstop.
  unfold Filter_init in Hstop. rewrite Forall_forall in Hstop.
  apply Forall_forall. intros p Hp.
  apply (Hstop (filter_value (criterion P) c (track_id p))).
  apply list_elem_of_In.
  apply (in_map (λ p, filter_value (criterion P) c (track_id p)) (point_cloud c) p).
  by apply list_elem_of_In.
Qed.

(** X7. When [ReduceError_RU] returns, every tie point left has a
    reconstruction uncertainty of at most 10 in the chunk returned; when
    [ReduceError_RE] returns, every tie point left has a reprojection
    error of at most 0.3. *)
Theorem ReduceError_postcondition (fuel : nat) c (init_threshold : Q) o :
  (ReduceError_RU fuel c init_threshold = Some o →
     Forall (λ p, filter_value ReconstructionUncertainty (final o) (track_id p) <= 10)
            (point_cloud (final o))) ∧
  (ReduceError_RE fuel c init_threshold = Some o →
     Forall (λ p, filter_value ReprojectionError (final o) (track_id p) <= 3 # 10)
            (point_cloud (final o))).
Proof.
  unfold ReduceError_RU, ReduceError_RE. split; intros Hr.
  - destruct (reduce_loop RU fuel init_threshold c) as [[s n]|] eqn:E; [|done].
    injection Hr as <-. cbn.
    apply reduce_loop_fresh in E as [Hf Hstop].
    apply (converged_values RU). unfold loop_cond in Hstop. by rewrite Hf in Hstop.
  - destruct (reduce_loop RE fuel init_threshold c) as [[s n]|] eqn:E; [|done].
    injection Hr as <-. cbn.
    apply reduce_loop_fresh in E as [Hf Hstop].
    apply (converged_values RE). unfold loop_cond in Hstop. by rewrite Hf in Hstop.
Qed.



(** With at most ten tie points, one selected point is already a tenth:
    a pass of the RE loop then widens, and removes only when nothing is
    selected. *)
Lemma RE_pass_keeps_small_clouds (t : Q) s :
  aligned s → (length (point_cloud (chunk s)) ≤ 10)%nat →
  map track_id (point_cloud (chunk (loop_body RE t s)))
  = map track_id (point_cloud (chunk s)).
Proof.
  intros Hal Hn.
  destruct (too_many RE (selectPoints (fltr s) (threshold s) (chunk s))) eqn:E.
  - rewrite loop_body_widen by done. cbn [chunk].
    rewrite reset_track_ids. by apply select_track_ids.
  - rewrite loop_body_remove by (by left). cbn.
    unfold too_many, nselected in E.
    rewrite selectPoints_cloud in E. rewrite select_length in E by done.
    apply Nat.leb_gt in E. cbn [divisor RE] in E.
    destruct (List.filter selected
                (zip_with (mark (threshold s)) (point_cloud (chunk s)) (fltr s)))
      eqn:Ef; [|cbn in E; lia].
    rewrite filter_unselected by done. by apply select_track_ids.
Qed.


(** A loop whose condition holds after every number of passes uses up
    any bound. *)
Lemma while_never_done (cond : Run → bool) (body : Run → Run) s :
  (∀ k : nat, cond (Nat.iter k body s) = true) →
  ∀ fuel : nat, while fuel cond body s = None.
Proof.
  intros Hc fuel. revert s Hc. induction fuel as [|fuel IH]; intros s Hc;
    pose proof (Hc 0%nat) as H0; cbn in H0; cbn [while]; rewrite H0; [done|].
  rewrite IH; [done|].
  intros k. rewrite <- Nat.iter_succ_r. apply Hc.
Qed.

(** With an engine whose reprojection error of a tie point is a matter of
    the tie point alone, the filter of the RE loop on a small cloud is the
    same after every pass. *)
Lemma RE_filter_stays (init_threshold : Q) c (n : nat) :
  (∀ c1 c2 tid, filter_value ReprojectionError c1 tid
                = filter_value ReprojectionError c2 tid) →
  (length (point_cloud c) ≤ 10)%nat →
  map track_id (point_cloud (chunk (after_passes RE init_threshold c n)))
    = map track_id (point_cloud c) ∧
  fltr (after_passes RE init_threshold c n) = Filter_init ReprojectionError c.
Proof.
  intros Hstable Hn. induction n as [|n [IHids IHf]]; [done|].
  change (after_passes RE init_threshold c (S n))
    with (loop_body RE init_threshold (after_passes RE init_threshold c n)).
  set (s := after_passes RE init_threshold c n) in *.
  assert (Hids : map track_id (point_cloud (chunk (loop_body RE init_threshold s)))
                 = map track_id (point_cloud c)).
  { rewrite RE_pass_keeps_small_clouds; [done|apply aligned_after_passes|].
    apply (f_equal length) in IHids. rewrite !length_map in IHids. lia. }
  split; [exact Hids|].
  destruct (too_many RE (selectPoints (fltr s) (threshold s) (chunk s))) eqn:E.
  - by rewrite loop_body_widen.
  - rewrite loop_body_remove in Hids |- * by (by left). cbn in Hids |- *.
    unfold Filter_init.
    rewrite <- (map_map track_id (λ tid, filter_value ReprojectionError _ tid)).
    cbn [point_cloud optimizeCameras]. rewrite Hids.
    rewrite map_map. apply map_ext. intros p. apply Hstable.
Qed.

(** X10. With an engine whose reprojection error of a tie point does not
    change under re-optimisation, [ReduceError_RE] never returns on a
    chunk of at most ten tie points one of which has an error above 0.3,
    whatever the bound on passes. *)
Theorem RE_never_ends_on_small_clouds (init_threshold : Q) c :
  (∀ c1 c2 tid, filter_value ReprojectionError c1 tid
                = filter_value ReprojectionError c2 tid) →
  (length (point_cloud c) ≤ 10)%nat →
  3 # 10 < max_value (Filter_init ReprojectionError c) →
  ∀ fuel : nat, ReduceError_RE fuel c init_threshold = None.
Proof.
  intros Hstable Hn Hmax fuel. unfold ReduceError_RE, reduce_loop.
  rewrite while_never_done; [done|].
  intros k.
  destruct (RE_filter_stays init_threshold c k Hstable Hn) as [_ Hf].
  unfold after_passes in Hf. unfold loop_cond. rewrite Hf.
  by apply Qgt_bool_true.
Qed.

End ReduceMore.

Section ReduceMoreExamples.

Import Examples MoreExamples.

#[local] Existing Instance table_engine.

Lemma ReduceError_keeps_a_subsequence_witness :
  [5; 6; 7]%Z `sublist_of` map track_id (point_cloud spiky_chunk).
Proof.
  apply (ReduceError_keeps_a_subsequence (H := table_engine) 5 spiky_chunk RU_init
           settled_spiky).
  left. reflexivity.
Defined.

Lemma ReduceError_postcondition_witness :
  Forall (λ p, inject_Z (track_id p) <= 10) [tie_point 5; tie_point 6; tie_point 7].
Proof.
  refine (proj1 (ReduceError_postcondition (H := table_engine) 5 spiky_chunk RU_init
                   settled_spiky) _).
  reflexivity.
Defined.



Lemma RE_never_ends_on_small_clouds_witness :
  ReduceError_RE (H := fixed_engine) 50 fixed_chunk RE_init = None.
Proof.
  apply (RE_never_ends_on_small_clouds (H := fixed_engine) RE_init fixed_chunk).
  - reflexivity.
  - vm_compute. lia.
  - vm_compute. reflexivity.
Defined.

End ReduceMoreExamples.

(** ** More on the view and sun geometry *)

Section GeometryMore.

Context `{Scene}.

Lemma aset_other (a : Array) (v u v' u' : nat) (x : Q) :
  (v', u') ≠ (v, u) → aset a v u x v' u' = a v' u'.
Proof.
  intros Hne. unfold aset.
  destruct (v' =? v)%nat eqn:Ev; destruct (u' =? u)%nat eqn:Eu; cbn; try done.
  apply Nat.eqb_eq in Ev, Eu. congruence.
Qed.


(** What the pixel loop has written into the cell of a pixel it has
    visited. *)
Lemma angle_loop_written (Pixelwise UTC : bool) (camera : Band)
    (l : list (nat * nat)) (st : Angles) (u v : nat) :
  let sun :=
    GetSunAngle (GetPixelLocation (inject_Z (Z.of_nat u)) (inject_Z (Z.of_nat v)) camera)
                (GetDateTime UTC camera) in
  let written (st : Angles) :=
    View_zenith st v u = fst (GetViewAngle u v camera) ∧
    View_azimuth st v u = snd (GetViewAngle u v camera) ∧
    (Pixelwise = true →
       Sun_zenith st v u = fst sun ∧ Sun_azimuth st v u = snd sun) in
  In (u, v) l ∨ written st →
  written (fold_left (angle_step Pixelwise UTC camera) l st).
Proof.
  cbn zeta. revert st. induction l as [|[u0 v0] l IH]; intros st Hcell.
  - destruct Hcell as [[]|Hcell]. exact Hcell.
  - cbn [fold_left]. apply IH.
    destruct Hcell as [[Heq|Hin]|(Hvz & Hva & Hsun)].
    + injection Heq as -> ->. right. unfold angle_step.
      destruct Pixelwise.
      * destruct (GetSunAngle _ _) as [sz sa].
        destruct (GetViewAngle u v camera) as [vz va]. cbn.
        rewrite !aset_same. done.
      * destruct (GetViewAngle u v camera) as [vz va]. cbn.
        rewrite !aset_same. done.
    + by left.
    + right. destruct (decide ((v, u) = (v0, u0))) as [[= -> ->]|Hne].
      * unfold angle_step. destruct Pixelwise.
        -- destruct (GetSunAngle _ _) as [sz sa].
           destruct (GetViewAngle u0 v0 camera) as [vz va]. cbn.
           rewrite !aset_same. done.
        -- destruct (GetViewAngle u0 v0 camera) as [vz va]. cbn.
           rewrite !aset_same. done.
      * unfold angle_step.
        destruct (if Pixelwise then _ else _) as [sz sa].
        destruct (GetViewAngle u0 v0 camera) as [vz va]. cbn.
        rewrite !aset_other by done. done.
Qed.

(** The cells of the pixels it has not visited are as they were. *)
Lemma angle_loop_untouched (Pixelwise UTC : bool) (camera : Band)
    (l : list (nat * nat)) (st : Angles) (u v : nat) :
  ¬ In (u, v) l →
  let st' := fold_left (angle_step Pixelwise UTC camera) l st in
  Sun_zenith st' v u = Sun_zenith st v u ∧
  Sun_azimuth st' v u = Sun_azimuth st v u ∧
  View_zenith st' v u = View_zenith st v u ∧
  View_azimuth st' v u = View_azimuth st v u.
Proof.
  cbn zeta. revert st. induction l as [|[u0 v0] l IH]; intros st Hnot; [done|].
  cbn [fold_left].
  destruct (IH (angle_step Pixelwise UTC camera st (u0, v0))) as (H1 & H2 & H3 & H4).
  { intros Hin. apply Hnot. by right. }
  rewrite H1, H2, H3, H4.
  assert (Hne : (v, u) ≠ (v0, u0)).
  { intros [= -> ->]. apply Hnot. by left. }
  unfold angle_step.
  destruct (if Pixelwise then _ else _) as [sz sa].
  destruct (GetViewAngle u0 v0 camera) as [vz va]. cbn.
  rewrite !aset_other by done. done.
Qed.

(** X12. The arrays of [CreateSunViewGeometryArrays] hold, in row [v] and
    column [u], the view angles of the pixel [(u, v)] for every pixel of
    the sensor and, with [Pixelwise] on, the sun angles at that pixel's own
    location; no cell outside the sensor is written, which the arrays of
    the model show by the 0 they keep there. *)
Theorem CreateSunViewGeometryArrays_cells (Pixelwise UTC : bool) (camera : Band)
    (u v : nat) :
  let A := CreateSunViewGeometryArrays Pixelwise UTC camera in
  let sun :=
    GetSunAngle (GetPixelLocation (inject_Z (Z.of_nat u)) (inject_Z (Z.of_nat v)) camera)
                (GetDateTime UTC camera) in
  ((u < sensor_width camera)%nat ∧ (v < sensor_height camera)%nat →
     View_zenith A v u = fst (GetViewAngle u v camera) ∧
     View_azimuth A v u = snd (GetViewAngle u v camera) ∧
     (Pixelwise = true →
        Sun_zenith A v u = fst sun ∧ Sun_azimuth A v u = snd sun)) ∧
  (¬ ((u < sensor_width camera)%nat ∧ (v < sensor_height camera)%nat) →
     Sun_zenith A v u = 0 ∧ Sun_azimuth A v u = 0 ∧
     View_zenith A v u = 0 ∧ View_azimuth A v u = 0).
Proof.
  cbn zeta. unfold CreateSunViewGeometryArrays.
  destruct (GetSunAngle (GetPixelLocation _ _ camera) (GetDateTime UTC camera))
    as [sz sa] eqn:E0.
  set (st := {| Pixel_Sun_zenith := sz; Pixel_Sun_azimuth := sa;
                Sun_zenith := zeros; Sun_azimuth := zeros;
                View_zenith := zeros; View_azimuth := zeros |}).
  split.
  - intros Hin. apply pixels_spec in Hin.
    apply (angle_loop_written Pixelwise UTC camera
             (pixels (sensor_width camera) (sensor_height camera)) st u v).
    by left.
  - intros Hout. rewrite <- pixels_spec in Hout.
    exact (angle_loop_untouched Pixelwise UTC camera
             (pixels (sensor_width camera) (sensor_height camera)) st u v Hout).
Qed.

End GeometryMore.

Section GeometryMoreExamples.

Import Examples.

#[local] Existing Instance toy_solar.
#[local] Existing Instance toy_scene.


Lemma CreateSunViewGeometryArrays_cells_witness :
  let A := CreateSunViewGeometryArrays (H0 := toy_scene) true true wide_band in
  (View_zenith A 2%nat 1%nat = fst (GetViewAngle (H0 := toy_scene) 1 2 wide_band) ∧
   View_azimuth A 2%nat 1%nat = snd (GetViewAngle (H0 := toy_scene) 1 2 wide_band) ∧
   (true = true →
    Sun_zenith A 2%nat 1%nat
      = fst (GetSunAngle (H := toy_solar) (GetPixelLocation (inject_Z 1) (inject_Z 2) wide_band) tt) ∧
    Sun_azimuth A 2%nat 1%nat
      = snd (GetSunAngle (H := toy_solar) (GetPixelLocation (inject_Z 1) (inject_Z 2) wide_band) tt))) ∧
  (Sun_zenith A 3%nat 1%nat = 0 ∧ Sun_azimuth A 3%nat 1%nat = 0 ∧
   View_zenith A 3%nat 1%nat = 0 ∧ View_azimuth A 3%nat 1%nat = 0).
Proof.
  split.
  - apply (CreateSunViewGeometryArrays_cells (H0 := toy_scene) true true wide_band 1 2).
    split; vm_compute; lia.
  - apply (CreateSunViewGeometryArrays_cells (H0 := toy_scene) true true wide_band 1 3).
    intros [_ Hv]. vm_compute in Hv. lia.
Defined.

End GeometryMoreExamples.

(** ** More on the BRDF correction *)

Section CorrectionMore.

Context `{Learn}.

Lemma zip_filter_sublist {A B} (f : A * B → bool) (l1 : list A) (l2 : list B) :
  map fst (List.filter f (zip l1 l2)) `sublist_of` l1.
Proof.
  revert l2. induction l1 as [|x l1 IH]; intros [|y l2]; cbn;
    try (apply sublist_nil_l).
  destruct (f (x, y)); cbn; constructor; apply IH.
Qed.

Lemma zip_filter_elem {A B} (f : A * B → bool) (l1 : list A) (l2 : list B) (x : A) :
  x ∈ map fst (List.filter f (zip l1 l2)) →
  ∃ (i : nat) (y : B), l1 !! i = Some x ∧ l2 !! i = Some y ∧ f (x, y) = true.
Proof.
  revert l2. induction l1 as [|x1 l1 IH]; intros [|y1 l2]; cbn;
    try (by intros ?%not_elem_of_nil).
  destruct (f (x1, y1)) eqn:E; cbn.
  - intros [->|Hin]%elem_of_cons.
    + by exists 0%nat, y1.
    + destruct (IH l2 Hin) as (i & y & ? & ? & ?). by exists (S i), y.
  - intros Hin. destruct (IH l2 Hin) as (i & y & ? & ? & ?). by exists (S i), y.
Qed.

(** X13. [SearchForOutliers] raises [IndexError] on an empty array and
    nothing else on any other; what it returns is a sub-sequence of the
    rows it was given, each with a DBSCAN label other than -1. *)
Theorem SearchForOutliers_prunes (data : list Row) :
  (SearchForOutliers data = Raise IndexError ↔ data = []) ∧
  (data ≠ [] → ∃ denoised, SearchForOutliers data = Ok denoised) ∧
  (∀ denoised, SearchForOutliers data = Ok denoised →
     denoised `sublist_of` data ∧
     ∀ r, r ∈ denoised →
       ∃ (i : nat) (l : Z),
         data !! i = Some r ∧
         dbscan_labels (map (λ r, (row_coef0 r, row_coef1 r, row_intercept r)) data)
           !! i = Some l ∧
         l ≠ (-1)%Z).
Proof.
  split; [|split].
  - destruct data; cbn; split; done.
  - destruct data; [done|]. intros _. eexists. reflexivity.
  - intros denoised Hd. destruct data as [|r0 data]; [done|].
    set (labels := dbscan_labels
                     (map (λ r, (row_coef0 r, row_coef1 r, row_intercept r))
                          (r0 :: data))) in *.
    assert (Hd' : denoised
                  = map fst (List.filter (λ rl : Row * Z, negb (rl.2 =? -1)%Z)
                               (zip (r0 :: data) labels)))
      by (unfold SearchForOutliers in Hd; by injection Hd).
    rewrite Hd'. split.
    + apply zip_filter_sublist.
    + intros r Hr. apply zip_filter_elem in Hr as (i & l & Hi & Hl & Hf).
      exists i, l. split; [done|]. split; [done|].
      cbn in Hf. apply negb_true_iff, Z.eqb_neq in Hf. done.
Qed.



Lemma foldlM_app {A B} (f : A → B → Res A) (acc : A) (l1 l2 : list B) :
  foldlM f acc (l1 ++ l2) = foldlM f acc l1 ≫= λ acc', foldlM f acc' l2.
Proof.
  revert acc. induction l1 as [|x l1 IH]; intros acc; cbn; [done|].
  destruct (f acc x) as [acc'|e]; cbn; [apply IH|done].
Qed.

Lemma band_loop_length (cwd outpath : string) (tables : Tables)
    (l : list Band) (w w' : World) (acts acts' : list Action) :
  foldlM (λ acc band,
            correct_band cwd outpath tables acc.1 band ≫= λ r,
            mret (r.1, acc.2 ++ [r.2]))
         (w, acts) l = Ok (w', acts') →
  length acts' = (length acts + length l)%nat.
Proof.
  revert w acts. induction l as [|band l IH]; intros w acts; cbn.
  - intros [= <- <-]. lia.
  - destruct (correct_band cwd outpath tables w band) as [[w1 a]|e]; cbn; [|done].
    intros Hrest. apply IH in Hrest. rewrite length_app in Hrest. cbn in Hrest. lia.
Qed.

(** A name without a slash is the last component of any path it ends. *)
Lemma rsplit_without (c : ascii) (name : string) :
  Text.has_char c name = false → Paths.rsplit c name = None.
Proof.
  induction name as [|a name IH]; cbn [Text.has_char Paths.rsplit]; [done|].
  intros [Ha Hrest]%orb_false_iff. by rewrite (IH Hrest), Ha.
Qed.

Lemma rsplit_last (c : ascii) (dir name : string) :
  Text.has_char c name = false →
  Paths.rsplit c (dir ++ String c name)%string = Some (dir, name).
Proof.
  intros Hname. induction dir as [|a dir IH].
  - change (Paths.rsplit c (String c name) = Some (EmptyString, name)).
    cbn [Paths.rsplit].
    by rewrite (rsplit_without c name Hname), Ascii.eqb_refl.
  - change (Paths.rsplit c (String a (dir ++ String c name)%string)
            = Some (String a dir, name)).
    cbn [Paths.rsplit]. by rewrite IH.
Qed.

(** The destination of a photo is a matter of its file name alone. *)
Lemma new_path_of_name (outpath dir name : string) :
  Text.has_char Paths.slash name = false →
  new_path outpath (dir ++ String Paths.slash name)%string = new_path outpath name.
Proof.
  intros Hname. unfold new_path, Paths.split.
  by rewrite (rsplit_last _ dir name Hname), (rsplit_without _ name Hname).
Qed.

(** Only the branch that ran [BRDFImage] with success reports
    [Corrected]. *)
Lemma corrected_inv (cwd outpath : string) (tables : Tables) (w w1 : World)
    (band : Band) :
  correct_band cwd outpath tables w band = Ok (w1, Corrected) →
  ∃ image,
    band_image tables w band = Ok image ∧
    w1 = photo_open
           (image_save w (new_path outpath (photo_path (bands w (band_id band)))) image)
           (band_id band) (new_path outpath (photo_path (bands w (band_id band)))).
Proof.
  unfold correct_band.
  destruct (group_label band) as [name|].
  { destruct (String.eqb name _); discriminate. }
  destruct (String.eqb _ _); [discriminate|].
  destruct (path_exists w _); [discriminate|].
  destruct (band_image tables w band) as [image|e].
  - intros [= <-]. by exists image.
  - destruct e; discriminate.
Qed.

(** X15. The destination of a band is made from the file name of its
    photo alone. So when a band has been corrected and a later band, of no
    camera group, has a photo of the same file name in another directory,
    the later band is not corrected: the loop finds the first band's file
    at its destination and re-opens it as the later band's photo. *)
Theorem same_file_name_reopens (cwd outpath : string) (tables : Tables)
    (w w1 : World) (band1 band2 : Band) (dir1 dir2 name : string) :
  Text.has_char Paths.slash name = false →
  photo_path (bands w (band_id band1)) = (dir1 ++ String Paths.slash name)%string →
  photo_path (bands w (band_id band2)) = (dir2 ++ String Paths.slash name)%string →
  band_id band2 ≠ band_id band1 →
  group_label band2 = None →
  filename_formatted cwd (dir2 ++ String Paths.slash name)%string ≠
    new_filename_formatted cwd outpath (dir2 ++ String Paths.slash name)%string →
  correct_band cwd outpath tables w band1 = Ok (w1, Corrected) →
  ∃ w2,
    correct_band cwd outpath tables w1 band2 = Ok (w2, Reopened) ∧
    photo (bands w2 (band_id band2)) = photo (bands w1 (band_id band1)) ∧
    photo_path (bands w2 (band_id band2)) = photo_path (bands w1 (band_id band1)) ∧
    files w2 = files w1.
Proof.
  intros Hname Hp1 Hp2 Hk Hg Hne Hrun.
  apply corrected_inv in Hrun as (image & _ & ->).
  rewrite Hp1, (new_path_of_name outpath dir1 name Hname).
  set (dest := new_path outpath name).
  set (w0 := image_save w dest image).
  assert (Hpath2 : photo_path (bands (photo_open w0 (band_id band1) dest) (band_id band2))
                   = (dir2 ++ String Paths.slash name)%string).
  { cbn. apply Nat.eqb_neq in Hk. by rewrite Hk. }
  assert (Hfile : files (photo_open w0 (band_id band1) dest) !! dest = Some image).
  { cbn. by rewrite lookup_insert_eq. }
  eexists. split.
  - unfold correct_band. rewrite Hg, Hpath2.
    apply String.eqb_neq in Hne. rewrite Hne.
    rewrite (new_path_of_name outpath dir2 name Hname). fold dest.
    unfold path_exists. rewrite Hfile.
    rewrite bool_decide_eq_true_2 by eauto. reflexivity.
  - cbn. rewrite !Nat.eqb_refl. cbn. rewrite !lookup_insert_eq. done.
Qed.








(** One sample of the regression for each camera that observes the tie
    point. *)
Lemma mapM_length {A B} (f : A → Res B) (l : list A) (r : list B) :
  mapM f l = Ok r → length r = length l.
Proof.
  revert r. induction l as [|x l IH]; intros r; cbn.
  - by intros [= <-].
  - intros Hrun. apply bind_Ok in Hrun as (y & _ & Hrun).
    apply bind_Ok in Hrun as (k & Hk & Hrun). injection Hrun as <-.
    cbn. f_equal. by apply IH.
Qed.

(** In tables that hold the same observations, a tie point of a camera
    has its own entry, which has the camera in it. *)
Lemma tie_point_entry (cm : CameraMatches) (pm : PointMatches) (key i : nat)
    (matches : gmap nat Coord) (coords : Coord) :
  (∀ i k, observation pm i k = observation cm k i) →
  cm !! key = Some matches → matches !! i = Some coords →
  ∃ point_match, pm !! i = Some point_match ∧ point_match !! key = Some coords.
Proof.
  intros Htr Hcm Hi.
  assert (Hobs : observation pm i key = Some coords).
  { rewrite Htr. unfold observation. by rewrite Hcm. }
  unfold observation in Hobs. destruct (pm !! i) as [point_match|]; [|done].
  by exists point_match.
Qed.

Lemma observer_has_table (cm : CameraMatches) (pm : PointMatches) (i k : nat)
    (point_match : gmap nat Coord) (coord : Coord) :
  (∀ i k, observation pm i k = observation cm k i) →
  pm !! i = Some point_match → point_match !! k = Some coord →
  is_Some (cm !! k).
Proof.
  intros Htr Hpm Hk.
  assert (Hobs : observation cm k i = Some coord).
  { rewrite <- Htr. unfold observation. by rewrite Hpm. }
  unfold observation in Hobs. destruct (cm !! k); [eauto|done].
Qed.

(** X17. In tables that hold the same observations by camera and by tie
    point, with at least three observations of every tie point, as
    [CollateMatchList] leaves them: every tie point the loop of [BRDFImage]
    visits for a band has its entry in [point_matches], so the lookup there
    raises no [KeyError]; the entry holds the band's own observation of the
    point; and the regression [MultiLinearRegression] fits for the point,
    when it returns, is fitted to one sample for each camera that observes
    the point, which are three or more. *)
Theorem tie_point_regression_samples (photos : nat → PSImage) (camera : Band)
    (cm : CameraMatches) (pm : PointMatches) (T : AngleTables)
    (matches : gmap nat Coord) (i : nat) (coords : Coord) :
  (∀ i k, observation pm i k = observation cm k i) →
  (∀ i value, pm !! i = Some value → (3 ≤ size value)%nat) →
  cm !! band_id camera = Some matches →
  matches !! i = Some coords →
  ∃ point_match,
    getitem pm i = Ok point_match ∧
    point_match !! band_id camera = Some coords ∧
    (3 ≤ size point_match)%nat ∧
    ∀ model, MultiLinearRegression photos point_match T = Ok model →
      ∃ samples,
        mapM (regression_sample photos T) (map_to_list point_match) = Ok samples ∧
        length samples = size point_match ∧
        (3 ≤ length samples)%nat ∧
        linear_fit (map (λ s, (s.1.1, s.1.2)) samples) (map (λ s, s.2) samples)
        = Some model.
Proof.
  intros Htr Hsize Hcm Hi.
  destruct (tie_point_entry cm pm (band_id camera) i matches coords Htr Hcm Hi)
    as (point_match & Hpm & Hown).
  exists point_match. unfold getitem. rewrite Hpm.
  split; [done|]. split; [done|]. split; [by apply (Hsize i)|].
  intros model Hrun. unfold MultiLinearRegression in Hrun.
  apply bind_Ok in Hrun as (samples & Hsamples & Hfit).
  exists samples. split; [done|].
  assert (Hlen : length samples = size point_match).
  { rewrite (mapM_length _ _ _ Hsamples). by rewrite length_map_to_list. }
  split; [done|]. split; [rewrite Hlen; by apply (Hsize i)|].
  destruct (linear_fit _ _) as [m|]; cbn in Hfit; [by injection Hfit as ->|done].
Qed.

Lemma no_KeyError_bind {A B} (m : Res A) (f : A → Res B) :
  m ≠ Raise KeyError → (∀ a, m = Ok a → f a ≠ Raise KeyError) →
  m ≫= f ≠ Raise KeyError.
Proof. destruct m as [a|e]; cbn; [auto|]. intros Hm _ [= ->]. by apply Hm. Qed.

Lemma no_KeyError_getitem {V} (d : gmap nat V) (k : nat) :
  is_Some (d !! k) → getitem d k ≠ Raise KeyError.
Proof. unfold getitem. by intros [v ->]. Qed.

Lemma no_KeyError_mapM {A B} (f : A → Res B) (l : list A) :
  (∀ a, a ∈ l → f a ≠ Raise KeyError) → mapM f l ≠ Raise KeyError.
Proof.
  induction l as [|x l IH]; intros Hf; cbn; [done|].
  apply no_KeyError_bind; [apply Hf; by left|]. intros y _.
  apply no_KeyError_bind; [apply IH; intros a Ha; apply Hf; by right|done].
Qed.

Lemma no_KeyError_foldlM {A B} (f : A → B → Res A) (l : list B) (acc : A) :
  (∀ a b, b ∈ l → f a b ≠ Raise KeyError) → foldlM f acc l ≠ Raise KeyError.
Proof.
  revert acc. induction l as [|x l IH]; intros acc Hf; cbn; [done|].
  apply no_KeyError_bind; [apply Hf; by left|]. intros acc' _.
  apply IH. intros a b Hb. apply Hf. by right.
Qed.

(** X18. No [KeyError] leaves [BRDFImage] when the image has a data type
    of the script's dictionary, the band has its entry in
    [camera_matches], the two tables hold the same observations, and every
    camera of [camera_matches] has its three arrays of angles: each of the
    dictionary lookups of the tie-point loop, of the regressions and of the
    prediction then finds its key. *)
Theorem BRDFImage_finds_its_keys (photos : nat → PSImage) (camera : Band)
    (cm : CameraMatches) (pm : PointMatches) (T : AngleTables) :
  data_type (photos (band_id camera)) ≠ F16 →
  is_Some (cm !! band_id camera) →
  (∀ i k, observation pm i k = observation cm k i) →
  (∀ k, is_Some (cm !! k) →
        is_Some (tbl_Sun_azimuth T !! k) ∧
        is_Some (tbl_View_zenith T !! k) ∧
        is_Some (tbl_View_azimuth T !! k)) →
  BRDFImage photos camera cm pm T ≠ Raise KeyError.
Proof.
  intros Hty Hband Htr Hangles.
  destruct (Hangles _ Hband) as (Hsa & Hvz & Hva).
  unfold BRDFImage. apply no_KeyError_bind.
  - unfold sample_tie_points.
    apply no_KeyError_bind;
      [by destruct (data_type (photos (band_id camera)))|intros Imtype _].
    apply no_KeyError_bind; [by apply no_KeyError_getitem|intros matches Hm].
    apply no_KeyError_bind; [|done].
    apply no_KeyError_foldlM. intros acc [i coords] Hin.
    apply elem_of_map_to_list in Hin.
    assert (Hcm : cm !! band_id camera = Some matches).
    { unfold getitem in Hm. destruct (cm !! band_id camera); [|done].
      by injection Hm as ->. }
    destruct (tie_point_entry cm pm (band_id camera) i matches coords Htr Hcm Hin)
      as (point_match & Hpm & _).
    unfold tie_point_row.
    apply no_KeyError_bind; [apply no_KeyError_getitem; eauto|intros pmatch Hget].
    assert (pmatch = point_match) as ->.
    { unfold getitem in Hget. rewrite Hpm in Hget. by injection Hget. }
    apply no_KeyError_bind.
    { unfold MultiLinearRegression. apply no_KeyError_bind.
      - apply no_KeyError_mapM. intros [k coord] Hk.
        apply elem_of_map_to_list in Hk.
        destruct (Hangles k (observer_has_table cm pm i k point_match coord
                               Htr Hpm Hk)) as (Hsa' & Hvz' & Hva').
        unfold regression_sample.
        repeat (apply no_KeyError_bind;
                [by apply no_KeyError_getitem|intros ? _]).
        done.
      - intros samples _. by destruct (linear_fit _ _). }
    intros model _.
    repeat (apply no_KeyError_bind; [by apply no_KeyError_getitem|intros ? _]).
    by destruct (gmm_predict _ _ =? 0)%nat.
  - intros S _.
    apply no_KeyError_bind; [by destruct ((s_BRDFArray S).1)|intros d0 _].
    apply no_KeyError_bind; [by destruct ((s_BRDFArray S).2)|intros d1 _].
    apply no_KeyError_bind;
      [unfold fit_feature; by destruct (linear_fit_no_intercept _ _)|intros clf0 _].
    apply no_KeyError_bind;
      [unfold fit_feature; by destruct (linear_fit_no_intercept _ _)|intros clf1 _].
    unfold synthesize.
    repeat (apply no_KeyError_bind; [by apply no_KeyError_getitem|intros ? _]).
    done.
Qed.

End CorrectionMore.

Section CorrectionRun.

Context `{Learn} `{Scene}.

(** X19. [BRDFCorrection] raises [IndexError] on a chunk without cameras;
    when it returns, it reports one action for each band plane of the
    chunk's cameras; and an exception that leaves the loop body at one
    band, after the bands before it were handled in order, ends the run
    there: the bands after it are not looked at and no state is
    returned. *)
Theorem BRDFCorrection_runs_in_order (Pixelwise UTC : bool) (cwd doc_path : string)
    (chunk : Correction.Chunk) (w : World) :
  (cameras chunk = [] →
     BRDFCorrection Pixelwise UTC cwd doc_path chunk w = Raise IndexError) ∧
  (∀ w' acts,
     BRDFCorrection Pixelwise UTC cwd doc_path chunk w = Ok (w', acts) →
     length acts = length (all_bands chunk)) ∧
  (∀ first rest (l1 l2 : list Band) band w1 acts e,
     cameras chunk = first :: rest →
     all_bands chunk = l1 ++ band :: l2 →
     let tables :=
       build_tables Pixelwise UTC chunk (map sensor_band (camera_planes first)) in
     foldlM (λ acc band,
               correct_band cwd (outpath_of doc_path chunk) tables acc.1 band ≫= λ r,
               mret (r.1, acc.2 ++ [r.2]))
            (w, []) l1 = Ok (w1, acts) →
     correct_band cwd (outpath_of doc_path chunk) tables w1 band = Raise e →
     BRDFCorrection Pixelwise UTC cwd doc_path chunk w = Raise e).
Proof.
  split; [|split].
  - intros Hc. unfold BRDFCorrection. by rewrite Hc.
  - intros w' acts. unfold BRDFCorrection.
    destruct (cameras chunk) as [|first rest]; [done|]. cbn.
    intros Hrun. by apply band_loop_length in Hrun.
  - intros first rest l1 l2 band w1 acts e Hc Hall tables Hl1 Hraise.
    unfold BRDFCorrection. rewrite Hc. cbn. fold tables.
    rewrite Hall, foldlM_app, Hl1. cbn. by rewrite Hraise.
Qed.

(** Two dictionaries filled side by side, key by key. *)
Lemma fold_insert_pair {A B} (P : string → A → B → Prop)
    (l : list (string * (A * B))) (d1 : gmap string A) (d2 : gmap string B)
    (name : string) (a : A) (b : B) :
  (∀ e, e ∈ l → P e.1 e.2.1 e.2.2) →
  (∀ a b, d1 !! name = Some a → d2 !! name = Some b → P name a b) →
  fold_left (λ d e, <[e.1 := e.2.1]> d) l d1 !! name = Some a →
  fold_left (λ d e, <[e.1 := e.2.2]> d) l d2 !! name = Some b →
  P name a b.
Proof.
  revert d1 d2. induction l as [|e l IH]; intros d1 d2 Hl Hd; cbn [fold_left].
  - apply Hd.
  - apply IH.
    + intros e' He'. apply Hl. by right.
    + intros a' b'. destruct (decide (e.1 = name)) as [<-|Hne].
      * rewrite !lookup_insert_eq. intros [= <-] [= <-]. apply Hl. by left.
      * rewrite !lookup_insert_ne by done. apply Hd.
Qed.

(** X20. The tables [BRDFCorrection] builds for a band name and hands to
    [BRDFImage] are those of one band index with that name, collated; when
    no two cameras share a key, the two tables hold the same observations,
    one by camera and one by tie point, and every tie point in them is
    seen by at least three cameras. *)
Theorem build_tables_consistent (Pixelwise UTC : bool) (chunk : Correction.Chunk)
    (band_names : list string) (name : string)
    (cm : CameraMatches) (pm : PointMatches) :
  let tables := build_tables Pixelwise UTC chunk band_names in
  camera_matches_of tables !! name = Some cm →
  point_matches_of tables !! name = Some pm →
  (∃ index,
     band_names !! index = Some name ∧
     (cm, pm) =
       let '(cameras, points) :=
         GetPointMatchList (track_ids chunk) (match_cameras chunk)
           (projections chunk) (Some index) in
       CollateMatchList cameras points) ∧
  ((∀ index, NoDup (band_keys (match_cameras chunk) (Some index))) →
   (∀ i k, observation pm i k = observation cm k i) ∧
   (∀ i value, pm !! i = Some value →
      (3 ≤ size value)%nat ∧ ∀ k, value !! k = observation cm k i)).
Proof.
  intros tables Hcm Hpm.
  assert (Hfrom : ∃ index,
     band_names !! index = Some name ∧
     (cm, pm) =
       let '(cameras, points) :=
         GetPointMatchList (track_ids chunk) (match_cameras chunk)
           (projections chunk) (Some index) in
       CollateMatchList cameras points).
  { revert Hcm Hpm. unfold tables, build_tables. cbn [camera_matches_of point_matches_of].
    apply (fold_insert_pair (λ name cm pm, ∃ index,
             band_names !! index = Some name ∧
             (cm, pm) =
               let '(cameras, points) :=
                 GetPointMatchList (track_ids chunk) (match_cameras chunk)
                   (projections chunk) (Some index) in
               CollateMatchList cameras points)).
    - intros e (index & band_name & -> & Hin)%elem_of_lookup_imap.
      exists index. split; [done|]. cbn [fst snd].
      destruct (GetPointMatchList (track_ids chunk) (match_cameras chunk)
                  (projections chunk) (Some index)) as [cs ps].
      by destruct (CollateMatchList cs ps).
    - intros a b Ha. by rewrite lookup_empty in Ha. }
  split; [exact Hfrom|].
  intros Hnd. destruct Hfrom as (index & _ & Heq).
  destruct (GetPointMatchList (track_ids chunk) (match_cameras chunk)
              (projections chunk) (Some index)) as [cameras points] eqn:Eg.
  assert (Htr : ∀ i k, observation points i k = observation cameras k i).
  { pose proof (match_cameras_transpose (track_ids chunk) (projections chunk)
                  (Some index) (match_cameras chunk) (∅, ∅) (Hnd index)) as Ht.
    unfold GetPointMatchList in Eg. cbn zeta in Ht. rewrite Eg in Ht.
    apply Ht.
    - intros; apply lookup_empty.
    - intros; unfold observation; cbn; by rewrite !lookup_empty. }
  pose proof (collate_consistent cameras points Htr) as Hc.
  rewrite <- Heq in Hc. exact Hc.
Qed.

End CorrectionRun.

Section CorrectionMoreExamples.

Import Examples MoreExamples.

#[local] Existing Instance toy_learn.
#[local] Existing Instance toy_solar.
#[local] Existing Instance toy_scene.

Lemma SearchForOutliers_prunes_witness :
  ∃ denoised,
    SearchForOutliers (map sample_row [1; 2; 3; 4; 5]) = Ok denoised ∧
    denoised `sublist_of` map sample_row [1; 2; 3; 4; 5].
Proof.
  destruct (SearchForOutliers_prunes (map sample_row [1; 2; 3; 4; 5]))
    as (_ & Hsome & Hsub).
  destruct Hsome as [denoised Hd]; [discriminate|].
  exists denoised. split; [exact Hd|]. exact (proj1 (Hsub denoised Hd)).
Defined.


Lemma same_file_name_reopens_witness :
  ∃ w1 w2,
    correct_band "/" outpath (tables_for dense_ids) twin_world (plane 0)
      = Ok (w1, Corrected) ∧
    correct_band "/" outpath (tables_for dense_ids) w1 (plane 1)
      = Ok (w2, Reopened) ∧
    photo (bands w2 1) = photo (bands w1 0) ∧
    photo_path (bands w2 1) = photo_path (bands w1 0).
Proof.
  destruct (correct_band "/" outpath (tables_for dense_ids) twin_world (plane 0))
    as [[w1 a]|e] eqn:E; [|vm_compute in E; discriminate].
  assert (Ha : a = Corrected)
    by (vm_compute in E; injection E as _ <-; reflexivity).
  subst a.
  destruct (same_file_name_reopens "/" outpath (tables_for dense_ids) twin_world w1
              (plane 0) (plane 1) "/data/flightA" "/data/flightB" "IMG_0001.TIF")
    as (w2 & Hrun & Hphoto & Hpath & _).
  - reflexivity.
  - reflexivity.
  - reflexivity.
  - discriminate.
  - reflexivity.
  - vm_compute. discriminate.
  - exact E.
  - exists w1, w2. split; [reflexivity|]. split; [exact Hrun|].
    split; [exact Hphoto|exact Hpath].
Defined.


Lemma BRDFCorrection_runs_in_order_witness :
  BRDFCorrection false true "/" "/data/project.psx" (three_cameras dark_ids) fresh_world
    = Raise IndexError ∧
  ∃ w acts,
    BRDFCorrection false true "/" "/data/project.psx" (three_cameras dense_ids)
      fresh_world = Ok (w, acts) ∧
    length acts = 3%nat.
Proof.
  split.
  - refine (proj2 (proj2 (BRDFCorrection_runs_in_order false true "/" "/data/project.psx"
                            (three_cameras dark_ids) fresh_world))
              _ _ [] [plane 1; plane 2] (plane 0) fresh_world [] IndexError
              eq_refl eq_refl eq_refl _).
    vm_compute. reflexivity.
  - destruct (BRDFCorrection false true "/" "/data/project.psx"
                (three_cameras dense_ids) fresh_world) as [[w acts]|e] eqn:E;
      [|vm_compute in E; discriminate].
    exists w, acts. split; [reflexivity|].
    exact (proj1 (proj2 (BRDFCorrection_runs_in_order false true "/"
                           "/data/project.psx" (three_cameras dense_ids) fresh_world))
             w acts E).
Defined.

Lemma build_tables_consistent_witness :
  ∃ cm pm,
    camera_matches_of (build_tables false true (three_cameras dense_ids) ["NIR"%string])
      !! "NIR"%string = Some cm ∧
    point_matches_of (build_tables false true (three_cameras dense_ids) ["NIR"%string])
      !! "NIR"%string = Some pm ∧
    ∀ i k, observation pm i k = observation cm k i.
Proof.
  destruct (camera_matches_of
              (build_tables false true (three_cameras dense_ids) ["NIR"%string])
              !! "NIR"%string) as [cm|] eqn:Ecm; [|vm_compute in Ecm; discriminate].
  destruct (point_matches_of
              (build_tables false true (three_cameras dense_ids) ["NIR"%string])
              !! "NIR"%string) as [pm|] eqn:Epm; [|vm_compute in Epm; discriminate].
  exists cm, pm. split; [reflexivity|]. split; [reflexivity|].
  refine (proj1 (proj2 (build_tables_consistent false true (three_cameras dense_ids)
                          ["NIR"%string] "NIR" cm pm Ecm Epm) _)).
  intros [|index]; apply (bool_decide_unpack _); vm_compute; exact I.
Defined.

Lemma collated_four_consistent :
  (∀ i k, observation collated_four.2 i k = observation collated_four.1 k i) ∧
  (∀ i value, collated_four.2 !! i = Some value → (3 ≤ size value)%nat).
Proof.
  destruct (collate_consistent four_matches.1 four_matches.2) as [Htr Hsize].
  - apply (match_cameras_transpose [10; 20; 30]%Z four_projections (Some 0%nat)
             four_cameras (∅, ∅)).
    + apply (bool_decide_unpack _). vm_compute. exact I.
    + intros k' _. apply lookup_empty.
    + intros i' k'. unfold observation. cbn. by rewrite !lookup_empty.
  - split; [exact Htr|]. intros i value Hv. exact (proj1 (Hsize i value Hv)).
Defined.

Lemma tie_point_regression_samples_witness :
  ∃ point_match,
    getitem collated_four.2 0%nat = Ok point_match ∧
    (3 ≤ size point_match)%nat.
Proof.
  destruct (collated_four.1 !! 0%nat) as [matches|] eqn:Ecm;
    [|vm_compute in Ecm; discriminate].
  destruct (matches !! 0%nat) as [coords|] eqn:Ei.
  - destruct (tie_point_regression_samples open_photos (plane 0) collated_four.1
                collated_four.2 four_angles matches 0%nat coords)
      as (point_match & Hget & _ & Hsize & _).
    + exact (proj1 collated_four_consistent).
    + exact (proj2 collated_four_consistent).
    + exact Ecm.
    + exact Ei.
    + exists point_match. split; [exact Hget|exact Hsize].
  - vm_compute in Ecm. injection Ecm as <-. vm_compute in Ei. discriminate.
Defined.

Lemma BRDFImage_finds_its_keys_witness :
  BRDFImage open_photos (plane 0) collated_four.1 collated_four.2 four_angles
  ≠ Raise KeyError.
Proof.
  apply (BRDFImage_finds_its_keys open_photos (plane 0) collated_four.1
           collated_four.2 four_angles).
  - discriminate.
  - apply (bool_decide_unpack _). vm_compute. exact I.
  - exact (proj1 collated_four_consistent).
  - intros k [v Hk].
    assert (HF : map_Forall (λ k _,
                   is_Some (tbl_Sun_azimuth four_angles !! k) ∧
                   is_Some (tbl_View_zenith four_angles !! k) ∧
                   is_Some (tbl_View_azimuth four_angles !! k)) collated_four.1)
      by (apply (bool_decide_unpack _); vm_compute; exact I).
    exact (HF k v Hk).
Defined.

End CorrectionMoreExamples.

Section WorkflowLabels.

Lemma append_cons (a : ascii) (s t : string) :
  (String a s ++ t)%string = String a (s ++ t)%string.
Proof. reflexivity. Qed.

Lemma append_empty (t : string) : (EmptyString ++ t)%string = t.
Proof. reflexivity. Qed.

Lemma prefix_spec (needle hay : string) :
  String.prefix needle hay = true ↔ ∃ b, hay = (needle ++ b)%string.
Proof.
  revert hay. induction needle as [|a needle IH]; intros hay.
  - split; [intros _; by exists hay|intros _; by destruct hay].
  - destruct hay as [|c hay]; cbn [String.prefix].
    + split; [done|]. intros (b & Hb). rewrite append_cons in Hb. done.
    + destruct (ascii_dec a c) as [->|Hne].
      * rewrite IH. split.
        -- intros (b & ->). exists b. by rewrite append_cons.
        -- intros (b & Hb). rewrite append_cons in Hb. injection Hb as ->. by exists b.
      * split; [done|]. intros (b & Hb). rewrite append_cons in Hb. congruence.
Qed.

(** [needle in hay] holds of the strings that have [needle] somewhere in
    them. *)
Lemma contains_spec (needle hay : string) :
  Text.contains needle hay = true ↔ ∃ a b, hay = (a ++ needle ++ b)%string.
Proof.
  induction hay as [|c hay IH]; cbn [Text.contains]; rewrite orb_true_iff, prefix_spec.
  - split.
    + intros [(b & Hb)|]; [|done]. exists EmptyString, b. by rewrite append_empty.
    + intros ([|x a] & b & Hb).
      * left. exists b. by rewrite append_empty in Hb.
      * rewrite append_cons in Hb. done.
  - rewrite IH. split.
    + intros [(b & Hb)|(a & b & ->)].
      * exists EmptyString, b. by rewrite append_empty.
      * exists (String c a), b. by rewrite append_cons.
    + intros ([|x a] & b & Hb).
      * left. exists b. by rewrite append_empty in Hb.
      * right. rewrite append_cons in Hb. injection Hb as -> ->. by exists a, b.
Qed.

(** X21. [StandardWorkflow] skips the chunks whose label has [_DEM]
    anywhere in it, at the end or not; the copy it makes of a chunk for the
    DEM has such a label, whatever the label of the chunk, so a later call
    skips the copy. *)
Theorem DEM_copy_is_skipped (label : string) :
  (Text.is_DEM_chunk label = true ↔
     ∃ a b, label = (a ++ "_DEM" ++ b)%string) ∧
  Text.is_DEM_chunk (Text.DEM_label label) = true.
Proof.
  split; [apply contains_spec|].
  apply contains_spec. exists label, EmptyString. reflexivity.
Qed.

End WorkflowLabels.
